(** * Face2XCli: the tiling, stitching and multi-pass upscale engine

    A shallow embedding of [src/utils.js] (tile grid, chunk extraction,
    stitching, alpha reconstruction, multi-pass control) and of the batch
    driver of [src/index.js], together with the properties of the
    specification that can be settled on it.

    Numbers are mathematical integers ([Z]); the source works on JavaScript
    numbers that are integral and far below 2^53 for every buffer that can
    be allocated, so no rounding occurs.  Buffers are [Uint8Array]s, modelled
    as lists of bytes. *)

From Stdlib Require Import ZArith Lia.
From Stdlib.Strings Require Import Byte.
From stdpp Require Import base list gmap strings pretty.

Open Scope Z_scope.

(** ** Typed arrays *)

Module TypedArray.

Definition Uint8Array := list byte.

(** [new Uint8Array(n)]: [n] zero bytes. *)
Definition new_Uint8Array (n : Z) : Uint8Array := replicate (Z.to_nat n) x00.

(** [data[k]]: [undefined] (here [None]) outside the array. *)
Definition read (d : Uint8Array) (k : Z) : option byte :=
  if bool_decide (0 ≤ k) then d !! Z.to_nat k else None.

(** Conversion of a stored value to an element: [undefined] becomes
    [NaN], which a [Uint8Array] stores as 0. *)
Definition ToUint8 (v : option byte) : byte := default x00 v.

(** [data[k] = v]: a typed array ignores a store outside its range. *)
Definition write (d : Uint8Array) (k : Z) (v : option byte) : Uint8Array :=
  if bool_decide (0 ≤ k) then <[Z.to_nat k := ToUint8 v]> d else d.

End TypedArray.
Export TypedArray.

(** ** Loops *)

(** [for (let i = 0; i < n; i += 1) st = body(i, st)]. *)
Definition for_loop {St : Type} (n : Z) (body : Z → St → St) (st : St) : St :=
  foldl (fun st i => body i st) st (seqZ 0 n).

(** ** The [ndarray] library, rank 3

    The library keeps one class per rank; a view is a data buffer together
    with a shape, a stride and an offset.  Where the library converts an
    argument to a 32-bit integer ([i|0]) the argument is used as it is: the
    arguments of the source are coordinates and sizes of arrays that exist,
    far below 2^31.  The buffer is kept apart from the
    geometry here, because several views of [upscaleFrame] alias one
    buffer ([outSlice] and [outArr], [inSlice] and [imageArray]). *)

Module NdArray.

Record View := mkView {
  shape : Z * Z * Z;
  stride : Z * Z * Z;
  offset : Z
}.

Definition shape0 (v : View) : Z := (shape v).1.1.
Definition shape1 (v : View) : Z := (shape v).1.2.
Definition shape2 (v : View) : Z := (shape v).2.
Definition stride0 (v : View) : Z := (stride v).1.1.
Definition stride1 (v : View) : Z := (stride v).1.2.
Definition stride2 (v : View) : Z := (stride v).2.

(** [ndarray(data, shape)]: row-major strides computed from the last
    axis to the first, [stride[i] = sz; sz *= shape[i]]; the offset makes
    up for negative strides. *)
Definition ndarray (sh : Z * Z * Z) : View :=
  let '(s0, s1, s2) := sh in
  let c2 := 1 in
  let c1 := c2 * s2 in
  let c0 := c1 * s1 in
  let off0 := if c0 <? 0 then - ((s0 - 1) * c0) else 0 in
  let off1 := if c1 <? 0 then - ((s1 - 1) * c1) else 0 in
  mkView sh (c0, c1, c2) (off0 + off1).

(** [view.lo(i0,i1,i2)]: for each non-negative argument the offset moves
    by [stride*i] and the shape shrinks by [i]. *)
Definition lo (v : View) (i0 i1 i2 : Z) : View :=
  let b := offset v in
  let '(b, a0) := if 0 <=? i0 then (b + stride0 v * i0, shape0 v - i0) else (b, shape0 v) in
  let '(b, a1) := if 0 <=? i1 then (b + stride1 v * i1, shape1 v - i1) else (b, shape1 v) in
  let '(b, a2) := if 0 <=? i2 then (b + stride2 v * i2, shape2 v - i2) else (b, shape2 v) in
  mkView (a0, a1, a2) (stride v) b.

(** [view.hi(i0,i1,i2)]: each non-negative argument replaces the shape of
    its axis; nothing is clipped against the old shape. *)
Definition hi (v : View) (i0 i1 i2 : Z) : View :=
  mkView (if i0 <? 0 then shape0 v else i0,
          if i1 <? 0 then shape1 v else i1,
          if i2 <? 0 then shape2 v else i2) (stride v) (offset v).

(** [view.pick(null, null, [0, 1, 2])].  The library fixes an axis only
    for an argument that is a non-negative number
    ([typeof i === 'number' && i >= 0]); for any other argument, [null]
    and the array [[0, 1, 2]] alike, the axis is kept with its shape and
    stride.  The call of the source therefore yields a view with the same
    geometry as its receiver, all four channels included. *)
Definition pick_null_null_array (v : View) : View :=
  mkView (shape v) (stride v) (offset v).

Definition index (v : View) (i0 i1 i2 : Z) : Z :=
  offset v + stride0 v * i0 + stride1 v * i1 + stride2 v * i2.

(** [view.get(i0,i1,i2)] and [view.set(i0,i1,i2,x)] on the buffer [d]. *)
Definition get (d : Uint8Array) (v : View) (i0 i1 i2 : Z) : option byte :=
  read d (index v i0 i1 i2).

Definition set (d : Uint8Array) (v : View) (i0 i1 i2 : Z) (x : option byte) : Uint8Array :=
  write d (index v i0 i1 i2) x.

(** [ops.assign(dst, src)] of [ndarray-ops]: the generated loop nest runs
    over the shape of the destination and reads the source through its
    own stride and offset.  The two buffers are distinct at every call
    of the source. *)
Definition assign (dst : Uint8Array) (dv : View) (src : Uint8Array) (sv : View) : Uint8Array :=
  for_loop (shape0 dv) (fun i0 =>
    for_loop (shape1 dv) (fun i1 =>
      for_loop (shape2 dv) (fun i2 d =>
        write d (index dv i0 i1 i2) (read src (index sv i0 i1 i2))))) dst.

(** An array value: a buffer with its geometry. *)
Record t := mk {
  data : Uint8Array;
  view : View
}.

End NdArray.
Export NdArray.

(** ** The inference engine (external)

    [superSession.run(feeds)] is an opaque, stateful operation.  A call
    either yields the tensor [output.output] or yields nothing: it raised,
    the session was never created, or the result has no such output.
    Tensors are those of the model's interface: [uint8] data with three
    dimensions; the data and the dimensions of a result are arbitrary and
    need not agree with each other or with the chunk submitted. *)

Record Tensor := mkTensor {
  tdata : Uint8Array;
  dims : Z * Z * Z
}.

Record InferenceSession := {
  Session : Type;
  session_run : Session → Tensor → Session * option Tensor
}.

(** ** [src/utils.js] *)

Section Utils.

Context (E : InferenceSession).

(** Asynchronous code that may raise: the session is threaded through,
    [None] stands for a rejected promise. *)
Definition M (A : Type) : Type := Session E → Session E * option A.

Definition ret {A} (a : A) : M A := fun s => (s, Some a).
Definition throw {A} : M A := fun s => (s, None).
Definition bind {A B} (m : M A) (k : A → M B) : M B :=
  fun s => match m s with
           | (s', Some a) => k a s'
           | (s', None) => (s', None)
           end.

(** [for (let i = 0; i < n; i += 1) st = await body(i, st)]. *)
Fixpoint foldM {I St : Type} (body : I → St → M St) (l : list I) (st : St) : M St :=
  match l with
  | [] => ret st
  | i :: l' => bind (body i st) (foldM body l')
  end.

Definition for_loopM {St : Type} (n : Z) (body : Z → St → M St) (st : St) : M St :=
  foldM body (seqZ 0 n) st.

(** [prepareImage(imageArray, 'superRes')], the only call of the upscale
    path: the tensor shares the array's buffer and has the dimensions
    [[width, height, 4]]. *)
Definition prepareImage (imageArray : NdArray.t) : Tensor :=
  let width := shape0 (view imageArray) in
  let height := shape1 (view imageArray) in
  mkTensor (data imageArray) (width, height, 4).

(** [runSuperRes]: a failure of the engine is logged and swallowed, the
    function then returns [undefined]. *)
Definition runSuperRes (imageArray : NdArray.t) : Session E → Session E * option Tensor :=
  fun s =>
    let feeds := prepareImage imageArray in
    session_run E s feeds.

Definition CHUNK_SIZE : Z := 1024.
Definition PAD_SIZE : Z := 32.

(** [Math.ceil(a / b)] on integers, [b > 0]. *)
Definition Math_ceil_div (a b : Z) : Z :=
  if a mod b =? 0 then a / b else a / b + 1.

Definition nChunks (inImg : Z) : Z := Math_ceil_div inImg CHUNK_SIZE.

(** The per-tile constants of the loop body (lines 83 to 91). *)
Record Tile := mkTile {
  t_x : Z; t_y : Z;
  t_yStart : Z; t_inH : Z; t_outH : Z;
  t_xStart : Z; t_inW : Z; t_outW : Z
}.

Definition tile (inImgW inImgH chunkW chunkH i j : Z) : Tile :=
  let x := j * chunkW in
  let y := i * chunkH in
  let yStart := Z.max 0 (y - PAD_SIZE) in
  let inH := if yStart + chunkH + PAD_SIZE * 2 >? inImgH then inImgH - yStart else chunkH + PAD_SIZE * 2 in
  let outH := 2 * (Z.min inImgH (y + chunkH) - y) in
  let xStart := Z.max 0 (x - PAD_SIZE) in
  let inW := if xStart + chunkW + PAD_SIZE * 2 >? inImgW then inImgW - xStart else chunkW + PAD_SIZE * 2 in
  let outW := 2 * (Z.min inImgW (x + chunkW) - x) in
  mkTile x y yStart inH outH xStart inW outW.

(** Lines 93 to 95: the padded slice of the source and its contiguous
    copy [subArr]. *)
Definition inSlice (imageArray : NdArray.t) (tl : Tile) : View :=
  hi (lo (view imageArray) (t_xStart tl) (t_yStart tl) 0) (t_inW tl) (t_inH tl) 4.

Definition subArr (imageArray : NdArray.t) (tl : Tile) : NdArray.t :=
  let sl := inSlice imageArray tl in
  let v := ndarray (shape sl) in
  NdArray.mk (assign (new_Uint8Array (t_inW tl * t_inH tl * 4)) v (data imageArray) sl) v.

(** [processAlphaChannel(inputArray, outputArray)]; the two arrays live in
    the buffers [inData] and [outData]. *)
Definition processAlphaChannel (inData : Uint8Array) (inputArray : View)
    (outData : Uint8Array) (outputArray : View) : Uint8Array :=
  let outW := shape0 outputArray in
  let outH := shape1 outputArray in
  for_loop outH (fun y =>
    for_loop outW (fun x d =>
      let inX := x / 2 in
      let inY := y / 2 in
      set d outputArray x y 3 (get inData inputArray inX inY 3))) outData.

(** Lines 98 to 103: crop of the engine's result and copy into the
    canvas buffer [outData]. *)
Definition outSlice (outArr : View) (tl : Tile) : View :=
  hi (lo outArr (t_x tl * 2) (t_y tl * 2) 0) (t_outW tl) (t_outH tl) 4.

Definition chunkSlice (chunkData : Tensor) (tl : Tile) : View :=
  let chunkArr := ndarray (dims chunkData) in
  hi (lo chunkArr ((t_x tl - t_xStart tl) * 2) ((t_y tl - t_yStart tl) * 2) 0)
     (t_outW tl) (t_outH tl) 4.

Definition stitch (outData : Uint8Array) (outArr : View) (chunkData : Tensor) (tl : Tile) : Uint8Array :=
  assign outData (pick_null_null_array (outSlice outArr tl))
         (tdata chunkData) (pick_null_null_array (chunkSlice chunkData tl)).

(** Lines 106 to 109. *)
Definition alphaInput (imageArray : NdArray.t) (tl : Tile) : View :=
  hi (lo (inSlice imageArray tl) (t_x tl - t_xStart tl) (t_y tl - t_yStart tl) 0)
     (t_outW tl / 2) (t_outH tl / 2) 4.

(** The body of the inner loop.  [chunkData.data] raises a [TypeError]
    when [runSuperRes] returned [undefined]. *)
Definition processTile (imageArray : NdArray.t) (outArr : View) (tl : Tile)
    (outData : Uint8Array) : M Uint8Array :=
  fun s =>
    match runSuperRes (subArr imageArray tl) s with
    | (s', None) => throw s'
    | (s', Some chunkData) =>
        let d1 := stitch outData outArr chunkData tl in
        let d2 := processAlphaChannel (data imageArray) (alphaInput imageArray tl)
                    d1 (outSlice outArr tl) in
        (s', Some d2)
    end.

Definition upscaleFrame (imageArray : NdArray.t) : M NdArray.t :=
  let inImgW := shape0 (view imageArray) in
  let inImgH := shape1 (view imageArray) in
  let outImgW := inImgW * 2 in
  let outImgH := inImgH * 2 in
  let nChunksW := nChunks inImgW in
  let nChunksH := nChunks inImgH in
  let chunkW := inImgW / nChunksW in
  let chunkH := inImgH / nChunksH in
  let outArr := ndarray (outImgW, outImgH, 4) in
  bind (for_loopM nChunksH (fun i =>
          for_loopM nChunksW (fun j =>
            processTile imageArray outArr (tile inImgW inImgH chunkW chunkH i j)))
          (new_Uint8Array (outImgW * outImgH * 4)))
       (fun outData => ret (NdArray.mk outData outArr)).

Definition multiUpscale (imageArray : NdArray.t) (upscaleFactor : Z) : M NdArray.t :=
  for_loopM upscaleFactor (fun s outArr => upscaleFrame outArr) imageArray.

End Utils.

Arguments ret {E A} a.
Arguments throw {E A}.
Arguments bind {E A B} m k.
Arguments foldM {E I St} body l st.
Arguments for_loopM {E St} n body st.

(** ** [src/index.js]: the image-level operation and the batch driver *)

Section Driver.

Context (E : InferenceSession).

(** The collaborators of the driver: the file system ([fs]), the image
    codec ([sharp]), path handling ([path]) and the creation of the
    inference session.  [None] stands for a raised error; a call of
    [mkdir] or [toFile] that raises is taken to leave the file system as
    it was, which the source does not decide. *)
Record Platform := {
  FS : Type;
  fs_readFile : FS → string → option (list byte);
  fs_mkdir : string → FS → option FS;
  fs_readdir : FS → string → option (list string);
  sharp_raw : list byte → option (Uint8Array * (Z * Z * Z));
  sharp_png_toFile : Uint8Array → Z * Z * Z → string → FS → option FS;
  path_join : string → string → string;
  path_extname : string → string;
  path_parse_name : string → string;
  String_toLowerCase : string → string;
  Number_toString : Z → string;
  InferenceSession_create : list byte → option (Session E)
}.

Context (P : Platform).

(** The file system and the module variable [superSession]. *)
Record World := mkWorld {
  files : FS P;
  superSession : Session E
}.

Definition processImage (inputPath outputPath : string) (upscaleFactor : Z)
    (w : World) : World * bool :=
  match fs_readFile P (files w) inputPath with
  | None => (w, false)
  | Some inputBuffer =>
    match sharp_raw P inputBuffer with
    | None => (w, false)
    | Some (data, (width, height, channels)) =>
      let imageArray := NdArray.mk data (ndarray (width, height, channels)) in
      match multiUpscale E imageArray upscaleFactor (superSession w) with
      | (s', None) => (mkWorld (files w) s', false)
      | (s', Some upscaledArray) =>
        let upscaledWidth := width * 2 ^ upscaleFactor in
        let upscaledHeight := height * 2 ^ upscaleFactor in
        match sharp_png_toFile P (NdArray.data upscaledArray)
                (upscaledWidth, upscaledHeight, channels) outputPath (files w) with
        | None => (mkWorld (files w) s', false)
        | Some fs' => (mkWorld fs' s', true)
        end
      end
    end
  end.

(** [fetchModel] and [initializeONNX] of [src/utils.js]. *)
Definition fetchModel (filepathOrUri : string) (fs : FS P) : option (list byte) :=
  fs_readFile P fs filepathOrUri.

Definition initializeONNX (w : World) : option World :=
  match fetchModel "./models/superRes.onnx" (files w) with
  | None => None
  | Some superBuf =>
    match InferenceSession_create P superBuf with
    | None => None
    | Some s => Some (mkWorld (files w) s)
    end
  end.

(** Lines 70 to 77: the loop over the PNG files with its counter. *)
Definition bulkStep (inputDir outputDir : string) (upscaleFactor : Z)
    (st : World * Z) (file : string) : World * Z :=
  let '(w, successCount) := st in
  let inputPath := path_join P inputDir file in
  let outputPath := path_join P outputDir
    (path_parse_name P file +:+ "_" +:+ Number_toString P (2 ^ upscaleFactor) +:+ "x.png") in
  let '(w', success) := processImage inputPath outputPath upscaleFactor w in
  (w', if success then successCount + 1 else successCount).

Definition bulkLoop (inputDir outputDir : string) (upscaleFactor : Z)
    (pngFiles : list string) (w : World) : World * Z :=
  foldl (bulkStep inputDir outputDir upscaleFactor) (w, 0) pngFiles.

(** [processBulkImages]: the result is the pair printed by the closing
    message, [successCount] and [pngFiles.length]; [None] when the outer
    [catch] was taken. *)
Definition processBulkImages (inputDir outputDir : string) (upscaleFactor : Z)
    (w : World) : World * option (Z * Z) :=
  match fs_mkdir P outputDir (files w) with
  | None => (w, None)
  | Some fs1 =>
    let w1 := mkWorld fs1 (superSession w) in
    match fs_readdir P fs1 inputDir with
    | None => (w1, None)
    | Some dirFiles =>
      let pngFiles := filter (fun file => String_toLowerCase P (path_extname P file) = ".png") dirFiles in
      match initializeONNX w1 with
      | None => (w1, None)
      | Some w2 =>
        let '(w3, successCount) := bulkLoop inputDir outputDir upscaleFactor pngFiles w2 in
        (w3, Some (successCount, Z.of_nat (length pngFiles)))
      end
    end
  end.

End Driver.

Arguments FS {E} _.
Arguments fs_readFile {E} _ _ _.
Arguments fs_mkdir {E} _ _ _.
Arguments fs_readdir {E} _ _ _.
Arguments sharp_raw {E} _ _.
Arguments sharp_png_toFile {E} _ _ _ _ _.
Arguments path_join {E} _ _ _.
Arguments path_extname {E} _ _.
Arguments path_parse_name {E} _ _.
Arguments String_toLowerCase {E} _ _.
Arguments Number_toString {E} _ _.
Arguments InferenceSession_create {E} _ _.
Arguments files {E P} _.
Arguments superSession {E P} _.
Arguments mkWorld {E P} _ _.

(** ** Chunk extraction on a store

    Lines 93 to 95 once more, with the buffers held in a store, so that
    the allocation of [subArr] and the aliasing of [inSlice] with the source
    are visible. *)

Module Store.

Definition loc := positive.
Abbreviation store := (gmap loc Uint8Array).

Definition load (h : store) (l : loc) (k : Z) : option byte :=
  d ← h !! l; read d k.

Definition store_at (h : store) (l : loc) (k : Z) (v : option byte) : store :=
  alter (fun d => write d k v) l h.

(** [new Uint8Array(n)]: a buffer at an address not in use. *)
Definition alloc (h : store) (n : Z) : store * loc :=
  let l := fresh (dom h) in
  (<[l := new_Uint8Array n]> h, l).

(** [ops.assign] between two arrays of the store; every element is read
    from the store when it is copied. *)
Definition assign_at (h : store) (dst : loc) (dv : View) (src : loc) (sv : View) : store :=
  for_loop (shape0 dv) (fun i0 =>
    for_loop (shape1 dv) (fun i1 =>
      for_loop (shape2 dv) (fun i2 h =>
        store_at h dst (index dv i0 i1 i2) (load h src (index sv i0 i1 i2))))) h.

(** [imageArray] is the array at [src] with geometry [iv]; the result is
    the new store and [subArr]. *)
Definition extractChunk (h : store) (src : loc) (iv : View) (tl : Tile) : store * (loc * View) :=
  let inSlice := hi (lo iv (t_xStart tl) (t_yStart tl) 0) (t_inW tl) (t_inH tl) 4 in
  let '(h1, l) := alloc h (t_inW tl * t_inH tl * 4) in
  let v := ndarray (shape inSlice) in
  (assign_at h1 l v src inSlice, (l, v)).

(** [n] extractions of the same region, one after the other. *)
Fixpoint extractMany (n : nat) (h : store) (src : loc) (iv : View) (tl : Tile)
    : store * list (loc * View) :=
  match n with
  | O => (h, [])
  | S n' =>
      let '(h1, r) := extractChunk h src iv tl in
      let '(h2, rs) := extractMany n' h1 src iv tl in
      (h2, r :: rs)
  end.

End Store.

(** ** Engines used in examples *)

(** Modelled from the spec: the identity-doubling test stub of the
    inference engine (section 8, which is not part of the repository): a
    [(w,h,4)] chunk is answered by the [(2w,2h,4)] buffer in which every
    source pixel is replicated into a 2x2 block. *)
Definition doubleTensor (t : Tensor) : Tensor :=
  let '(w, h, _) := dims t in
  mkTensor
    ((fun k => ToUint8 (get (tdata t) (ndarray (w, h, 4))
                          (k / (2 * h * 4) / 2) (k / 4 mod (2 * h) / 2) (k mod 4)))
       <$> seqZ 0 (2 * w * (2 * h) * 4))
    (2 * w, 2 * h, 4).

Definition doublingEngine : InferenceSession :=
  {| Session := unit; session_run := fun s t => (s, Some (doubleTensor t)) |}.

(** An engine whose every call fails. *)
Definition failingEngine : InferenceSession :=
  {| Session := unit; session_run := fun s _ => (s, None) |}.

(** An engine that answers every chunk with one pixel [(9,9,9,200)], shape
    [(1,1,4)]. *)
Definition onePixelEngine : InferenceSession :=
  {| Session := unit;
     session_run := fun s _ => (s, Some (mkTensor [x09; x09; x09; xc8] (1, 1, 4))) |}.

(** An engine that answers a chunk by four pixels [(1,2,3,200)], shape
    [(2,2,4)]. *)
Definition constEngine : InferenceSession :=
  {| Session := unit;
     session_run := fun s _ =>
       (s, Some (mkTensor [x01; x02; x03; xc8; x01; x02; x03; xc8;
                           x01; x02; x03; xc8; x01; x02; x03; xc8] (2, 2, 4))) |}.

(** ** Vocabulary of the statements *)

(** A [W] x [H] RGBA image as [imageToNdarray] builds it. *)
Definition rgba (img : NdArray.t) (W H : Z) : Prop :=
  view img = ndarray (W, H, 4) ∧ length (data img) = Z.to_nat (W * H * 4).

(** The tile [(i,j)] of the pass over a [W] x [H] image. *)
Definition tileOf (W H i j : Z) : Tile :=
  tile W H (W / nChunks W) (H / nChunks H) i j.

(** Output pixel [(px,py)] lies in the [outputRegion] of tile [(i,j)]. *)
Definition inOutputRegion (W H i j px py : Z) : Prop :=
  let tl := tileOf W H i j in
  t_x tl * 2 ≤ px < t_x tl * 2 + t_outW tl ∧ t_y tl * 2 ≤ py < t_y tl * 2 + t_outH tl.

Definition inGrid (W H i j : Z) : Prop :=
  0 ≤ i < nChunks H ∧ 0 ≤ j < nChunks W.

Definition covered (W H px py : Z) : Prop :=
  ∃ i j, inGrid W H i j ∧ inOutputRegion W H i j px py.

(** The tiles of a pass in the order of the two loops. *)
Definition grid (W H : Z) : list (Z * Z) :=
  i ← seqZ 0 (nChunks H); j ← seqZ 0 (nChunks W); [(i, j)].

Section Failure.

Context (E : InferenceSession).

Definition tileStep (img : NdArray.t) (ij : Z * Z) : Uint8Array → M E Uint8Array :=
  let W := shape0 (view img) in
  let H := shape1 (view img) in
  processTile E img (ndarray (W * 2, H * 2, 4)) (tileOf W H ij.1 ij.2).

(** In the pass over [img] started in session state [s], the inference
    call of some tile yields nothing. *)
Definition inferenceFailsInPass (img : NdArray.t) (s : Session E) : Prop :=
  let W := shape0 (view img) in
  let H := shape1 (view img) in
  ∃ l1 ij l2 s1 d1,
    grid W H = l1 ++ ij :: l2 ∧
    foldM (tileStep img) l1 (new_Uint8Array (W * 2 * (H * 2) * 4)) s = (s1, Some d1) ∧
    (runSuperRes E (subArr img (tileOf W H ij.1 ij.2)) s1).2 = None.

(** In one of the [N] passes over [img], an inference call yields
    nothing. *)
Definition inferenceFailsInImage (img : NdArray.t) (N : Z) (s : Session E) : Prop :=
  ∃ k sk imgk, 0 ≤ k < N ∧ multiUpscale E img k s = (sk, Some imgk) ∧
               inferenceFailsInPass imgk sk.

(** The passes of [multiUpscale] do not look at the loop counter. *)
Definition passes (l : list Z) : NdArray.t → M E NdArray.t :=
  foldM (fun (_ : Z) outArr => upscaleFrame E outArr) l.

(** Every call of the engine yields a tensor. *)
Definition engineTotal : Prop :=
  ∀ s t, is_Some (session_run E s t).2.

(** Every call of the engine yields the doubled chunk. *)
Definition engineDoubles : Prop :=
  ∀ s t, (session_run E s t).2 = Some (doubleTensor t).

End Failure.

(** [f] changes a buffer only by the stores that [R] describes: a cell is
    left as it was or holds a value stored to it, and a cell of the buffer
    that is stored to holds a stored value afterwards. *)
Definition writes (f : Uint8Array → Uint8Array) (R : Z → byte → Prop) : Prop :=
  ∀ d, length (f d) = length d ∧
       (∀ k, read (f d) k = read d k ∨ ∃ b, R k b ∧ read (f d) k = Some b) ∧
       (∀ k b, R k b → 0 ≤ k < Z.of_nat (length d) →
               ∃ b', R k b' ∧ read (f d) k = Some b').

(** The stores of [assign] and of [processAlphaChannel]. *)
Definition assignStores (dv : View) (src : Uint8Array) (sv : View) (k : Z) (b : byte) : Prop :=
  ∃ i0 i1 i2, 0 ≤ i0 < shape0 dv ∧ 0 ≤ i1 < shape1 dv ∧ 0 ≤ i2 < shape2 dv ∧
              k = index dv i0 i1 i2 ∧ b = ToUint8 (read src (index sv i0 i1 i2)).

Definition alphaStores (inData : Uint8Array) (iv ov : View) (k : Z) (b : byte) : Prop :=
  ∃ x y, 0 ≤ x < shape0 ov ∧ 0 ≤ y < shape1 ov ∧
         k = index ov x y 3 ∧ b = ToUint8 (get inData iv (x / 2) (y / 2) 3).

(** The facts about a tile of the grid that the later proofs use. *)
Record TileFacts (W H : Z) (tl : Tile) : Prop := {
  tf_xStart : 0 ≤ t_xStart tl ≤ t_x tl;
  tf_yStart : 0 ≤ t_yStart tl ≤ t_y tl;
  tf_padx : t_x tl - t_xStart tl ≤ PAD_SIZE;
  tf_pady : t_y tl - t_yStart tl ≤ PAD_SIZE;
  tf_inW : t_xStart tl + t_inW tl ≤ W;
  tf_inH : t_yStart tl + t_inH tl ≤ H;
  tf_cropW : t_x tl - t_xStart tl + W / nChunks W ≤ t_inW tl;
  tf_cropH : t_y tl - t_yStart tl + H / nChunks H ≤ t_inH tl;
  tf_outW : t_outW tl = 2 * (W / nChunks W);
  tf_outH : t_outH tl = 2 * (H / nChunks H);
  tf_x : t_x tl + W / nChunks W ≤ W;
  tf_y : t_y tl + H / nChunks H ≤ H;
  tf_cW : 1 ≤ W / nChunks W;
  tf_cH : 1 ≤ H / nChunks H
}.

(** ** Vocabulary of the batch driver *)

Section DriverVocabulary.

Context (E : InferenceSession) (P : Platform E).
Context (inputDir outputDir : string) (upscaleFactor : Z).

(** The call of [processImage] that the loop makes for [file]. *)
Definition processFile (file : string) (w : World E P) : World E P * bool :=
  processImage E P (path_join P inputDir file)
    (path_join P outputDir
       (path_parse_name P file +:+ "_" +:+ Number_toString P (2 ^ upscaleFactor) +:+ "x.png"))
    upscaleFactor w.

(** Every file of [l] is processed successfully, one after the other,
    starting in [w]. *)
Fixpoint allSucceed (l : list string) (w : World E P) : Prop :=
  match l with
  | [] => True
  | file :: l' => (processFile file w).2 = true ∧ allSucceed l' (processFile file w).1
  end.

(** [file] can be read and decoded in [w], and an inference call of its
    conversion yields nothing. *)
Definition failsByInference (file : string) (w : World E P) : Prop :=
  ∃ inputBuffer data width height channels,
    fs_readFile P (files w) (path_join P inputDir file) = Some inputBuffer ∧
    sharp_raw P inputBuffer = Some (data, (width, height, channels)) ∧
    inferenceFailsInImage E (NdArray.mk data (ndarray (width, height, channels)))
      upscaleFactor (superSession w).

End DriverVocabulary.

(** ** Concrete inputs of the examples *)

Definition pixel1 : NdArray.t := NdArray.mk [x01; x02; x03; x04] (ndarray (1, 1, 4)).

(** A 1025 x 1 image, every channel 255. *)
Definition whiteStrip : NdArray.t :=
  NdArray.mk (replicate 4100 xff) (ndarray (1025, 1, 4)).

(** An engine that fails on a chunk whose first byte is 0 and doubles any
    other chunk. *)
Definition pickyEngine : InferenceSession :=
  {| Session := unit;
     session_run := fun s t =>
       (s, match tdata t with
           | x00 :: _ => None
           | _ => Some (doubleTensor t)
           end) |}.

(** A small platform: the file system is an association list, an image
    file holds one raw RGBA pixel. *)
Fixpoint assoc (p : string) (fs : list (string * list byte)) : option (list byte) :=
  match fs with
  | [] => None
  | (q, b) :: fs' => if String.eqb p q then Some b else assoc p fs'
  end.

Definition dropLast4 (f : string) : string :=
  String.substring 0 (String.length f - 4)%nat f.

Definition last4 (f : string) : string :=
  String.substring (String.length f - 4)%nat 4 f.

Definition demoPlatform : Platform pickyEngine :=
  {| FS := list (string * list byte);
     fs_readFile := fun fs p => assoc p fs;
     fs_mkdir := fun _ fs => Some fs;
     fs_readdir := fun fs dir =>
       Some (omap (fun e : string * list byte =>
                     if String.prefix (dir +:+ "/") e.1
                     then Some (String.substring (S (String.length dir))
                                  (String.length e.1 - S (String.length dir))%nat e.1)
                     else None) fs);
     sharp_raw := fun b => if decide (length b = 4%nat) then Some (b, (1, 1, 4)) else None;
     sharp_png_toFile := fun d _ path fs => Some ((path, d) :: fs);
     path_join := fun a b => a +:+ "/" +:+ b;
     path_extname := last4;
     path_parse_name := dropLast4;
     String_toLowerCase := fun f => f;
     Number_toString := pretty;
     InferenceSession_create := fun _ => Some (tt : Session pickyEngine) |}.

Definition demoFiles : list (string * list byte) :=
  [("./models/superRes.onnx", []);
   ("in/a.png", [x01; x02; x03; x04]);
   ("in/b.png", [x00; x00; x00; x00]);
   ("in/c.png", [x05; x06; x07; x08])].

Definition demoWorld : World pickyEngine demoPlatform :=
  @mkWorld pickyEngine demoPlatform demoFiles tt.

(** ** [prepareImage] for both models

    The tagger layout needs two more operations of [ndarray]: an array of
    rank 4 with its first axis picked, and the transposition of a view of
    rank 3. *)

Module NdArray4.

Record View4 := mkView4 {
  shape4 : Z * Z * Z * Z;
  stride4 : Z * Z * Z * Z;
  offset4 : Z
}.

(** [ndarray(data, [s0, s1, s2, s3])]. *)
Definition ndarray4 (sh : Z * Z * Z * Z) : View4 :=
  let '(s0, s1, s2, s3) := sh in
  let c3 := 1 in
  let c2 := c3 * s3 in
  let c1 := c2 * s2 in
  let c0 := c1 * s1 in
  let off0 := if c0 <? 0 then - ((s0 - 1) * c0) else 0 in
  let off1 := if c1 <? 0 then - ((s1 - 1) * c1) else 0 in
  let off2 := if c2 <? 0 then - ((s2 - 1) * c2) else 0 in
  mkView4 sh (c0, c1, c2, c3) (off0 + off1 + off2).

(** [view.pick(i0, null, null)] on rank 4, for a number [i0 >= 0] (the
    source passes 0): the first axis is fixed at [i0], the other three are
    kept, the fourth argument being [undefined]. *)
Definition pick_first (v : View4) (i0 : Z) : View :=
  let '(_, s1, s2, s3) := shape4 v in
  let '(c0, c1, c2, c3) := stride4 v in
  mkView (s1, s2, s3) (c1, c2, c3) (offset4 v + c0 * i0).

(** [a[i]] for an axis number; [undefined] outside 0..2 does not arise
    in the source and is read as 0. *)
Definition axis (a : Z * Z * Z) (i : Z) : Z :=
  if i =? 0 then a.1.1 else if i =? 1 then a.1.2 else if i =? 2 then a.2 else 0.

(** [view.transpose(i0, i1, i2)]. *)
Definition transpose (v : View) (i0 i1 i2 : Z) : View :=
  mkView (axis (shape v) i0, axis (shape v) i1, axis (shape v) i2)
         (axis (stride v) i0, axis (stride v) i1, axis (stride v) i2) (offset v).

End NdArray4.
Export NdArray4.

(** The feeds of a session: a [uint8] tensor of any rank. *)
Record Feeds := mkFeeds {
  f_data : Uint8Array;
  f_dims : list Z
}.

(** [new ort.Tensor('uint8', data, dims)]: the constructor raises when a
    dimension is negative or when the product of the dimensions is not the
    length of the data. *)
Definition ort_Tensor (d : Uint8Array) (dms : list Z) : option Feeds :=
  if decide (Forall (fun n => 0 ≤ n) dms ∧ Z.of_nat (length d) = foldr Z.mul 1 dms)
  then Some (mkFeeds d dms) else None.

(** [prepareImage(imageArray, model)] with both branches and the error
    for any other model name. *)
Definition prepareImageFor (imageArray : NdArray.t) (model : string) : option Feeds :=
  let width := shape0 (view imageArray) in
  let height := shape1 (view imageArray) in
  if String.eqb model "superRes" then
    ort_Tensor (data imageArray) [width; height; 4]
  else if String.eqb model "tagger" then
    let newND := ndarray4 (1, 3, height, width) in
    let newData :=
      assign (new_Uint8Array (width * height * 3)) (pick_first newND 0)
             (data imageArray)
             (transpose (hi (lo (view imageArray) 0 0 0) width height 3) 2 1 0) in
    ort_Tensor newData [1; 3; height; width]
  else None.

(** ** An engine that keeps a record of its calls *)

Definition recording (E : InferenceSession) : InferenceSession :=
  {| Session := Session E * list Tensor;
     session_run := fun sl t =>
       let '(s', r) := session_run E sl.1 t in ((s', sl.2 ++ [t]), r) |}.

(** The chunk that the pass over [img] submits for tile [ij]. *)
Definition chunkOf (img : NdArray.t) (ij : Z * Z) : Tensor :=
  prepareImage (subArr img (tileOf (shape0 (view img)) (shape1 (view img)) ij.1 ij.2)).

(** A 2 x 1 image with three channels per pixel. *)
Definition rgbPair : NdArray.t :=
  NdArray.mk [x01; x02; x03; x11; x12; x13] (ndarray (2, 1, 3)).

(** A 2 x 1 RGBA image. *)
Definition rgbaPair : NdArray.t :=
  NdArray.mk [x01; x02; x03; x04; x11; x12; x13; x14] (ndarray (2, 1, 4)).

(** * Properties *)

(** ** Arithmetic of the tile grid *)

Lemma Math_ceil_div_spec a b :
  0 < b → Math_ceil_div a b * b - b < a ≤ Math_ceil_div a b * b.
Proof.
  intros Hb. unfold Math_ceil_div.
  pose proof (Z.div_mod a b ltac:(lia)) as Hdm.
  pose proof (Z.mod_pos_bound a b Hb) as Hm.
  destruct (Z.eqb_spec (a mod b) 0); nia.
Qed.

Lemma nChunks_bounds W : 1 ≤ W → 1 ≤ nChunks W ≤ W.
Proof.
  intros HW. unfold nChunks.
  pose proof (Math_ceil_div_spec W CHUNK_SIZE ltac:(reflexivity)) as Hc.
  unfold CHUNK_SIZE in *. lia.
Qed.

Lemma nChunks_chunk_size W : 1 ≤ W → W ≤ nChunks W * CHUNK_SIZE.
Proof.
  intros HW. unfold nChunks.
  pose proof (Math_ceil_div_spec W CHUNK_SIZE ltac:(reflexivity)). lia.
Qed.

Lemma chunk_bounds W :
  1 ≤ W →
  1 ≤ W / nChunks W ≤ CHUNK_SIZE ∧
  nChunks W * (W / nChunks W) ≤ W < nChunks W * (W / nChunks W) + nChunks W.
Proof.
  intros HW.
  pose proof (nChunks_bounds W HW) as Hn.
  pose proof (nChunks_chunk_size W HW) as Hk.
  pose proof (Z.div_mod W (nChunks W) ltac:(lia)) as Hdm.
  pose proof (Z.mod_pos_bound W (nChunks W) ltac:(lia)) as Hm.
  unfold CHUNK_SIZE in *.
  repeat split; nia.
Qed.

(** One axis of a tile: [k] is the tile index, [c] the chunk length. *)
Lemma axis_bounds dim n c k :
  1 ≤ c → n * c ≤ dim → 0 ≤ k < n →
  let pos := k * c in
  let start := Z.max 0 (pos - PAD_SIZE) in
  let inL := if start + c + PAD_SIZE * 2 >? dim then dim - start else c + PAD_SIZE * 2 in
  let outL := 2 * (Z.min dim (pos + c) - pos) in
  0 ≤ start ≤ pos ∧ pos - start ≤ PAD_SIZE ∧ start + inL ≤ dim ∧
  pos - start + c ≤ inL ∧ outL = 2 * c ∧ pos + c ≤ dim ∧ 0 ≤ pos.
Proof.
  intros Hc Hn Hk pos start inL outL.
  assert (pos + c ≤ n * c) by (subst pos; nia).
  assert (0 ≤ pos) by (subst pos; nia).
  subst start inL outL. unfold PAD_SIZE.
  destruct (Z.gtb_spec (Z.max 0 (pos - 32) + c + 32 * 2) dim); lia.
Qed.

Lemma tile_facts W H i j :
  1 ≤ W → 1 ≤ H → inGrid W H i j → TileFacts W H (tileOf W H i j).
Proof.
  intros HW HH [Hi Hj].
  destruct (chunk_bounds W HW) as [[HcW _] [HnW _]].
  destruct (chunk_bounds H HH) as [[HcH _] [HnH _]].
  pose proof (axis_bounds W (nChunks W) (W / nChunks W) j HcW HnW Hj) as HX.
  pose proof (axis_bounds H (nChunks H) (H / nChunks H) i HcH HnH Hi) as HY.
  cbv zeta in HX, HY.
  split; unfold tileOf, tile; cbn [t_x t_y t_xStart t_yStart t_inW t_inH t_outW t_outH];
    try lia; tauto.
Qed.

Lemma tileOf_x W H i j : t_x (tileOf W H i j) = j * (W / nChunks W).
Proof. reflexivity. Qed.

Lemma tileOf_y W H i j : t_y (tileOf W H i j) = i * (H / nChunks H).
Proof. reflexivity. Qed.

(** The [outputRegion]s of a pass cover exactly the rectangle
    [[0, 2*nChunksW*chunkW) x [0, 2*nChunksH*chunkH)]. *)
Lemma covered_iff W H px py :
  1 ≤ W → 1 ≤ H →
  covered W H px py ↔
  0 ≤ px < 2 * (nChunks W * (W / nChunks W)) ∧
  0 ≤ py < 2 * (nChunks H * (H / nChunks H)).
Proof.
  intros HW HH.
  destruct (chunk_bounds W HW) as [[HcW _] _].
  destruct (chunk_bounds H HH) as [[HcH _] _].
  pose proof (nChunks_bounds W HW). pose proof (nChunks_bounds H HH).
  split.
  - intros (i & j & Hg & Hx & Hy).
    pose proof (tile_facts W H i j HW HH Hg) as F.
    destruct Hg as [Hi Hj].
    rewrite (tf_outW _ _ _ F), tileOf_x in Hx.
    rewrite (tf_outH _ _ _ F), tileOf_y in Hy.
    split; nia.
  - intros [Hx Hy].
    set (cW := W / nChunks W) in *. set (cH := H / nChunks H) in *.
    pose proof (Z.div_mod px (2 * cW) ltac:(lia)).
    pose proof (Z.mod_pos_bound px (2 * cW) ltac:(lia)).
    pose proof (Z.div_mod py (2 * cH) ltac:(lia)).
    pose proof (Z.mod_pos_bound py (2 * cH) ltac:(lia)).
    exists (py / (2 * cH)), (px / (2 * cW)).
    assert (Hg : inGrid W H (py / (2 * cH)) (px / (2 * cW))).
    { split; split; try (apply Z.div_pos; lia);
        apply Z.div_lt_upper_bound; lia. }
    split; [exact Hg|].
    pose proof (tile_facts W H _ _ HW HH Hg) as F.
    unfold inOutputRegion. cbv zeta.
    rewrite (tf_outW _ _ _ F), (tf_outH _ _ _ F), tileOf_x, tileOf_y.
    fold cW cH. lia.
Qed.

(** No two tiles of a pass share an output pixel. *)
Lemma outputRegions_disjoint W H i j i' j' px py :
  1 ≤ W → 1 ≤ H → inGrid W H i j → inGrid W H i' j' →
  inOutputRegion W H i j px py → inOutputRegion W H i' j' px py →
  i = i' ∧ j = j'.
Proof.
  intros HW HH Hg Hg' [Hx Hy] [Hx' Hy'].
  pose proof (tile_facts W H i j HW HH Hg) as F.
  pose proof (tile_facts W H i' j' HW HH Hg') as F'.
  rewrite (tf_outW _ _ _ F), tileOf_x in Hx.
  rewrite (tf_outH _ _ _ F), tileOf_y in Hy.
  rewrite (tf_outW _ _ _ F'), tileOf_x in Hx'.
  rewrite (tf_outH _ _ _ F'), tileOf_y in Hy'.
  pose proof (tf_cW _ _ _ F). pose proof (tf_cH _ _ _ F).
  split; nia.
Qed.

(** The canvas [[0,2W) x [0,2H)] is covered exactly when each dimension is
    a multiple of its number of chunks. *)
Lemma coverage_complete_iff W H :
  1 ≤ W → 1 ≤ H →
  (∀ px py, 0 ≤ px < 2 * W → 0 ≤ py < 2 * H → covered W H px py) ↔
  W mod nChunks W = 0 ∧ H mod nChunks H = 0.
Proof.
  intros HW HH.
  pose proof (nChunks_bounds W HW). pose proof (nChunks_bounds H HH).
  pose proof (Z.div_mod W (nChunks W) ltac:(lia)).
  pose proof (Z.mod_pos_bound W (nChunks W) ltac:(lia)).
  pose proof (Z.div_mod H (nChunks H) ltac:(lia)).
  pose proof (Z.mod_pos_bound H (nChunks H) ltac:(lia)).
  split.
  - intros Hall.
    assert (Hc : covered W H (2 * W - 1) (2 * H - 1)) by (apply Hall; lia).
    apply covered_iff in Hc; lia.
  - intros [HmW HmH] px py Hx Hy. apply covered_iff; lia.
Qed.

(** ** Buffers and stores *)

Lemma length_write d k v : length (write d k v) = length d.
Proof. unfold write. case_bool_decide; [apply length_insert | done]. Qed.

Lemma read_write_eq d k v :
  0 ≤ k < Z.of_nat (length d) → read (write d k v) k = Some (ToUint8 v).
Proof.
  intros Hk. unfold read, write. rewrite !bool_decide_eq_true_2 by lia.
  apply list_lookup_insert_eq. lia.
Qed.

Lemma read_write_ne d k k' v : k ≠ k' → read (write d k v) k' = read d k'.
Proof.
  intros Hne. unfold read, write.
  destruct (bool_decide (0 ≤ k')) eqn:Hk'; [|done].
  destruct (bool_decide (0 ≤ k)) eqn:Hk; [|done].
  apply bool_decide_eq_true_1 in Hk, Hk'.
  apply list_lookup_insert_ne. lia.
Qed.

Lemma read_is_Some d k : 0 ≤ k < Z.of_nat (length d) → is_Some (read d k).
Proof.
  intros Hk. unfold read. rewrite bool_decide_eq_true_2 by lia.
  apply lookup_lt_is_Some. lia.
Qed.

Lemma read_new_Uint8Array n k :
  0 ≤ k < n → read (new_Uint8Array n) k = Some x00.
Proof.
  intros Hk. unfold read, new_Uint8Array. rewrite bool_decide_eq_true_2 by lia.
  apply lookup_replicate_2. lia.
Qed.

Lemma length_new_Uint8Array n : length (new_Uint8Array n) = Z.to_nat n.
Proof. apply length_replicate. Qed.

Lemma writes_write k0 v :
  writes (fun d => write d k0 v) (fun k b => k = k0 ∧ b = ToUint8 v).
Proof.
  intros d. split; [apply length_write|]. split.
  - intros k. destruct (decide (k0 = k)) as [->|Hne].
    + destruct (decide (0 ≤ k < Z.of_nat (length d))) as [Hin|Hout].
      * right. exists (ToUint8 v). by rewrite read_write_eq.
      * left. cbn beta.
        replace (write d k v) with d; [done|].
        unfold write. case_bool_decide; [|done].
        symmetry. apply list_insert_ge. lia.
    + left. by apply read_write_ne.
  - intros k b [-> ->] Hin. exists (ToUint8 v). by rewrite read_write_eq.
Qed.

Lemma writes_weaken f (R R' : Z → byte → Prop) :
  (∀ k b, R k b ↔ R' k b) → writes f R → writes f R'.
Proof.
  intros HR Hf d. destruct (Hf d) as (Hl & H1 & H2).
  split; [done|]. split.
  - intros k. destruct (H1 k) as [?|(b & Hb & ?)]; [by left|].
    right. exists b. split; [by apply HR|done].
  - intros k b Hb Hin. destruct (H2 k b (proj2 (HR k b) Hb) Hin) as (b' & Hb' & ?).
    exists b'. split; [by apply HR|done].
Qed.

Lemma writes_compose f1 f2 (R1 R2 : Z → byte → Prop) :
  writes f1 R1 → writes f2 R2 →
  writes (fun d => f2 (f1 d)) (fun k b => R1 k b ∨ R2 k b).
Proof.
  intros Hf1 Hf2 d.
  destruct (Hf1 d) as (Hl1 & H11 & H12).
  destruct (Hf2 (f1 d)) as (Hl2 & H21 & H22).
  split; [congruence|]. split.
  - intros k. destruct (H21 k) as [Heq|(b & Hb & Hr)].
    + rewrite Heq. destruct (H11 k) as [?|(b & Hb & Hr)]; [by left|].
      right. exists b. auto.
    + right. exists b. auto.
  - intros k b [Hb|Hb] Hin.
    + destruct (H12 k b Hb Hin) as (b1 & Hb1 & Hr1).
      destruct (H21 k) as [Heq|(b2 & Hb2 & Hr2)].
      * exists b1. split; [by left|congruence].
      * exists b2. auto.
    + destruct (H22 k b Hb ltac:(lia)) as (b2 & Hb2 & Hr2).
      exists b2. auto.
Qed.

Lemma writes_id : writes (fun d => d) (fun _ _ => False).
Proof.
  intros d. split; [done|]. split; [by left|by intros ? ? []].
Qed.

Lemma writes_foldl {I} (body : I → Uint8Array → Uint8Array)
    (R : I → Z → byte → Prop) (l : list I) :
  (∀ i, i ∈ l → writes (body i) (R i)) →
  writes (fun d => foldl (fun st i => body i st) d l)
         (fun k b => ∃ i, i ∈ l ∧ R i k b).
Proof.
  induction l as [|x l IH]; intros Hb.
  - eapply writes_weaken; [|apply writes_id].
    intros k b. split; [done|]. intros (i & Hi & _). by apply elem_of_nil in Hi.
  - cbn [foldl].
    eapply writes_weaken;
      [|apply (writes_compose (body x) _ (R x) _ (Hb x ltac:(left))
                 (IH (fun i Hi => Hb i ltac:(by right))))].
    intros k b. cbn beta. split.
    + intros [Hx|(i & Hi & HR)]; [exists x; split; [left|done]|exists i; split; [by right|done]].
    + intros (i & Hi & HR). apply elem_of_cons in Hi as [->|Hi]; [by left|right; eauto].
Qed.

Lemma writes_for_loop n body (R : Z → Z → byte → Prop) :
  (∀ i, 0 ≤ i < n → writes (body i) (R i)) →
  writes (for_loop n body) (fun k b => ∃ i, 0 ≤ i < n ∧ R i k b).
Proof.
  intros Hb. unfold for_loop.
  eapply writes_weaken; [|apply (writes_foldl body R (seqZ 0 n))].
  - intros k b. split; intros (i & Hi & HR); exists i; (split; [|done]);
      apply elem_of_seqZ in Hi || apply elem_of_seqZ; lia.
  - intros i Hi%elem_of_seqZ. apply Hb. lia.
Qed.

Lemma writes_assign dv src sv :
  writes (fun d => assign d dv src sv) (assignStores dv src sv).
Proof.
  unfold assign.
  eapply writes_weaken; [|apply writes_for_loop; intros i0 H0;
    apply writes_for_loop; intros i1 H1;
    apply writes_for_loop; intros i2 H2; apply writes_write].
  intros k b. unfold assignStores. split.
  - intros (i0 & H0 & i1 & H1 & i2 & H2 & -> & ->). by exists i0, i1, i2.
  - intros (i0 & i1 & i2 & H0 & H1 & H2 & -> & ->).
    exists i0. split; [done|]. exists i1. split; [done|]. by exists i2.
Qed.

Lemma writes_processAlphaChannel inData iv ov :
  writes (fun d => processAlphaChannel inData iv d ov) (alphaStores inData iv ov).
Proof.
  unfold processAlphaChannel.
  eapply writes_weaken; [|apply writes_for_loop; intros y Hy;
    apply writes_for_loop; intros x Hx; apply writes_write].
  intros k b. unfold alphaStores, set. split.
  - intros (y & Hy & x & Hx & -> & ->). by exists x, y.
  - intros (x & y & Hx & Hy & -> & ->).
    exists y. split; [done|]. by exists x.
Qed.

(** ** Geometry of views *)

Lemma index_ndarray s0 s1 s2 a b c :
  0 ≤ s1 → 0 ≤ s2 → index (ndarray (s0, s1, s2)) a b c = (a * s1 + b) * s2 + c.
Proof.
  intros H1 H2. unfold index, ndarray, stride0, stride1, stride2. cbn.
  rewrite !Z.mul_1_l.
  destruct (Z.ltb_spec (s2 * s1) 0); [nia|].
  destruct (Z.ltb_spec s2 0); [lia|]. ring.
Qed.

Lemma index_lo v a b c i j k :
  0 ≤ a → 0 ≤ b → 0 ≤ c →
  index (lo v a b c) i j k = index v (a + i) (b + j) (c + k).
Proof.
  intros Ha Hb Hc. unfold lo.
  rewrite !(proj2 (Z.leb_le 0 _)) by done.
  unfold index, stride0, stride1, stride2. cbn. lia.
Qed.

Lemma index_hi v a b c i j k : index (hi v a b c) i j k = index v i j k.
Proof. reflexivity. Qed.

Lemma index_pick v i j k : index (pick_null_null_array v) i j k = index v i j k.
Proof. reflexivity. Qed.

Lemma shape_hi v a b c :
  0 ≤ a → 0 ≤ b → 0 ≤ c → shape (hi v a b c) = (a, b, c).
Proof.
  intros Ha Hb Hc. unfold hi. cbn.
  by rewrite !(proj2 (Z.ltb_ge _ 0)).
Qed.

Lemma shape_pick v : shape (pick_null_null_array v) = shape v.
Proof. reflexivity. Qed.

Lemma flat_inj s1 s2 a b c a' b' c' :
  0 ≤ b < s1 → 0 ≤ c < s2 → 0 ≤ b' < s1 → 0 ≤ c' < s2 →
  (a * s1 + b) * s2 + c = (a' * s1 + b') * s2 + c' →
  a = a' ∧ b = b' ∧ c = c'.
Proof.
  intros Hb Hc Hb' Hc' Heq.
  destruct (Z.div_mod_unique s2 (a * s1 + b) (a' * s1 + b') c c') as [Hab ->];
    [lia..|].
  destruct (Z.div_mod_unique s1 a a' b b') as [-> ->]; [lia..|done].
Qed.

Lemma flat_range s0 s1 s2 a b c :
  0 ≤ a < s0 → 0 ≤ b < s1 → 0 ≤ c < s2 →
  0 ≤ (a * s1 + b) * s2 + c < s0 * s1 * s2.
Proof.
  intros Ha Hb Hc.
  assert (0 ≤ a * s1 + b < s0 * s1) by nia.
  nia.
Qed.

(** The views of a tile, in coordinates of the arrays they are cut from. *)
Section TileViews.

Context (W H i j : Z) (HW : 1 ≤ W) (HH : 1 ≤ H) (Hg : inGrid W H i j).

Lemma outSlice_shape :
  shape (outSlice (ndarray (W * 2, H * 2, 4)) (tileOf W H i j)) = (t_outW (tileOf W H i j), t_outH (tileOf W H i j), 4).
Proof.
  pose proof (tile_facts W H i j HW HH Hg) as F.
  unfold outSlice. apply shape_hi; [| |done].
  - rewrite (tf_outW _ _ _ F). pose proof (tf_cW _ _ _ F). lia.
  - rewrite (tf_outH _ _ _ F). pose proof (tf_cH _ _ _ F). lia.
Qed.

Lemma outSlice_index u v c :
  index (outSlice (ndarray (W * 2, H * 2, 4)) (tileOf W H i j)) u v c =
  ((t_x (tileOf W H i j) * 2 + u) * (H * 2) + (t_y (tileOf W H i j) * 2 + v)) * 4 + c.
Proof.
  pose proof (tile_facts W H i j HW HH Hg) as F.
  unfold outSlice. rewrite index_hi, index_lo.
  - rewrite index_ndarray by lia. lia.
  - pose proof (tf_xStart _ _ _ F). lia.
  - pose proof (tf_yStart _ _ _ F). lia.
  - done.
Qed.

Lemma alphaInput_index img a b c :
  view img = ndarray (W, H, 4) →
  index (alphaInput img (tileOf W H i j)) a b c = ((t_x (tileOf W H i j) + a) * H + (t_y (tileOf W H i j) + b)) * 4 + c.
Proof.
  pose proof (tile_facts W H i j HW HH Hg) as F.
  intros Hv. unfold alphaInput, inSlice. rewrite Hv.
  pose proof (tf_xStart _ _ _ F). pose proof (tf_yStart _ _ _ F).
  rewrite index_hi, index_lo, index_hi, index_lo by lia.
  rewrite index_ndarray by lia. lia.
Qed.

Lemma inSlice_index img a b c :
  view img = ndarray (W, H, 4) →
  index (inSlice img (tileOf W H i j)) a b c = ((t_xStart (tileOf W H i j) + a) * H + (t_yStart (tileOf W H i j) + b)) * 4 + c.
Proof.
  pose proof (tile_facts W H i j HW HH Hg) as F.
  intros Hv. unfold inSlice. rewrite Hv.
  pose proof (tf_xStart _ _ _ F). pose proof (tf_yStart _ _ _ F).
  rewrite index_hi, index_lo by lia.
  rewrite index_ndarray by lia. lia.
Qed.

Lemma inSlice_shape img : shape (inSlice img (tileOf W H i j)) = (t_inW (tileOf W H i j), t_inH (tileOf W H i j), 4).
Proof.
  pose proof (tile_facts W H i j HW HH Hg) as F.
  unfold inSlice. apply shape_hi; [| |done].
  - pose proof (tf_cropW _ _ _ F). pose proof (tf_cW _ _ _ F).
    pose proof (tf_xStart _ _ _ F). lia.
  - pose proof (tf_cropH _ _ _ F). pose proof (tf_cH _ _ _ F).
    pose proof (tf_yStart _ _ _ F). lia.
Qed.

(** A store through [outSlice] that hits the canvas cell of [(px,py,c)]
    is the store at the tile-local coordinates of that pixel. *)
Lemma outSlice_decode u v c' px py c :
  0 ≤ u < t_outW (tileOf W H i j) → 0 ≤ v < t_outH (tileOf W H i j) → 0 ≤ c' < 4 →
  0 ≤ py < 2 * H → 0 ≤ c < 4 →
  index (ndarray (W * 2, H * 2, 4)) px py c =
    index (outSlice (ndarray (W * 2, H * 2, 4)) (tileOf W H i j)) u v c' →
  px = t_x (tileOf W H i j) * 2 + u ∧ py = t_y (tileOf W H i j) * 2 + v ∧ c = c'.
Proof.
  pose proof (tile_facts W H i j HW HH Hg) as F.
  intros Hu Hv Hc' Hpy Hc Heq.
  rewrite outSlice_index, index_ndarray in Heq by lia.
  pose proof (tf_outH _ _ _ F). pose proof (tf_y _ _ _ F).
  pose proof (tf_yStart _ _ _ F).
  eapply flat_inj in Heq; [done|lia..].
Qed.

End TileViews.

(** ** One tile: stitching followed by alpha reconstruction *)

Lemma get_rgba_is_Some img W H a b c :
  rgba img W H → 0 ≤ a < W → 0 ≤ b < H → 0 ≤ c < 4 →
  is_Some (get (data img) (view img) a b c).
Proof.
  intros [Hv Hl] Ha Hb Hc. unfold get. apply read_is_Some.
  rewrite Hv, index_ndarray, Hl by lia.
  pose proof (flat_range W H 4 a b c Ha Hb Hc). lia.
Qed.

Lemma Some_ToUint8 (r : option byte) : is_Some r → Some (ToUint8 r) = r.
Proof. by intros [b ->]. Qed.

Lemma half_local x u : (x * 2 + u) / 2 = x + u / 2.
Proof. rewrite Z.div_add_l by lia. done. Qed.

Ltac half_bounds :=
  split; [apply Z.div_pos; lia | apply Z.div_lt_upper_bound; lia].

(** Within the region of a tile, the cell of channel [c] of a pixel is
    the cell that [outSlice] reaches at the pixel's local coordinates and
    channel [c], and at no other channel. *)
Lemma outSlice_cell W H i j px py c c' :
  1 ≤ W → 1 ≤ H → inGrid W H i j →
  0 ≤ py < 2 * H → 0 ≤ c < 4 → 0 ≤ c' < 4 →
  inOutputRegion W H i j px py →
  index (ndarray (W * 2, H * 2, 4)) px py c =
    index (outSlice (ndarray (W * 2, H * 2, 4)) (tileOf W H i j))
      (px - t_x (tileOf W H i j) * 2) (py - t_y (tileOf W H i j) * 2) c' ↔ c = c'.
Proof.
  intros HW HH Hg Hpy Hc Hc' [Hx Hy].
  pose proof (tile_facts W H i j HW HH Hg) as F.
  rewrite (outSlice_index W H i j HW HH Hg), index_ndarray by lia.
  split; [|intros ->; f_equal; f_equal; lia].
  intros Heq. pose proof (tf_outH _ _ _ F). pose proof (tf_y _ _ _ F).
  pose proof (tf_yStart _ _ _ F).
  eapply flat_inj in Heq; [tauto|lia..].
Qed.

Lemma canvas_cell_range W H px py c :
  0 ≤ px < 2 * W → 0 ≤ py < 2 * H → 0 ≤ c < 4 →
  0 ≤ index (ndarray (W * 2, H * 2, 4)) px py c < Z.of_nat (Z.to_nat (W * 2 * (H * 2) * 4)).
Proof.
  intros Hpx Hpy Hc. rewrite index_ndarray by lia.
  pose proof (flat_range (W * 2) (H * 2) 4 px py c). lia.
Qed.

(** The stitching step: inside the region of the tile the canvas takes
    the crop of the engine's result, all four channels of it; outside, the
    canvas is left as it was. *)
Lemma stitch_spec W H i j d chunkData :
  1 ≤ W → 1 ≤ H → inGrid W H i j →
  length d = Z.to_nat (W * 2 * (H * 2) * 4) →
  let tl := tileOf W H i j in
  let outArr := ndarray (W * 2, H * 2, 4) in
  let d1 := stitch d outArr chunkData tl in
  length d1 = length d ∧
  ∀ px py c, 0 ≤ px < 2 * W → 0 ≤ py < 2 * H → 0 ≤ c < 4 →
    (inOutputRegion W H i j px py →
       get d1 outArr px py c =
       Some (ToUint8 (read (tdata chunkData)
               (index (chunkSlice chunkData tl) (px - t_x tl * 2) (py - t_y tl * 2) c)))) ∧
    (¬ inOutputRegion W H i j px py → get d1 outArr px py c = get d outArr px py c).
Proof.
  intros HW HH Hg Hlen.
  pose proof (outSlice_shape W H i j HW HH Hg) as Hshape.
  pose proof (outSlice_decode W H i j HW HH Hg) as Hdec.
  pose proof (fun px py c c' => outSlice_cell W H i j px py c c' HW HH Hg) as Hcell.
  cbv zeta. unfold inOutputRegion in *. cbv zeta in Hcell.
  set (tl := tileOf W H i j) in *. set (outArr := ndarray (W * 2, H * 2, 4)) in *.
  pose proof (writes_assign (pick_null_null_array (outSlice outArr tl)) (tdata chunkData)
                (pick_null_null_array (chunkSlice chunkData tl)) d) as (Ls & S1 & S2).
  fold (stitch d outArr chunkData tl) in Ls, S1, S2.
  split; [done|].
  intros px py c Hpx Hpy Hc.
  pose proof (canvas_cell_range W H px py c Hpx Hpy Hc) as Hk.
  rewrite <- Hlen in Hk. fold outArr in Hk.
  set (k := index outArr px py c) in *.
  (* a store of the copy into the cell of (px,py,c) *)
  assert (HdecS : ∀ b, assignStores (pick_null_null_array (outSlice outArr tl)) (tdata chunkData)
                         (pick_null_null_array (chunkSlice chunkData tl)) k b →
            (t_x tl * 2 ≤ px < t_x tl * 2 + t_outW tl ∧
             t_y tl * 2 ≤ py < t_y tl * 2 + t_outH tl) ∧
            b = ToUint8 (read (tdata chunkData)
                  (index (chunkSlice chunkData tl) (px - t_x tl * 2) (py - t_y tl * 2) c))).
  { intros b (u & v & c' & Hu & Hv & Hc' & Hidx & ->).
    unfold shape0, shape1, shape2 in Hu, Hv, Hc'.
    rewrite shape_pick, Hshape in Hu, Hv, Hc'. cbn [fst snd] in Hu, Hv, Hc'.
    rewrite index_pick in Hidx.
    apply Hdec in Hidx as (-> & -> & ->); [|done..].
    split; [split; lia|].
    rewrite index_pick. f_equal. f_equal. f_equal; lia. }
  split.
  - intros Hreg. pose proof Hreg as [Hx Hy]. unfold get. fold k.
    destruct (S2 k (ToUint8 (read (tdata chunkData)
                (index (pick_null_null_array (chunkSlice chunkData tl))
                   (px - t_x tl * 2) (py - t_y tl * 2) c))))
      as (b' & Hb' & Hr); [|done|].
    + exists (px - t_x tl * 2), (py - t_y tl * 2), c.
      unfold shape0, shape1, shape2.
      rewrite shape_pick, Hshape. cbn [fst snd].
      split; [lia|]. split; [lia|]. split; [lia|]. split; [|done].
      rewrite index_pick. by apply Hcell.
    + apply HdecS in Hb' as (_ & ->). exact Hr.
  - intros Hreg. unfold get. fold k.
    destruct (S1 k) as [?|(b & Hb & _)]; [done|by apply HdecS in Hb as (? & _)].
Qed.

(** Alpha reconstruction: inside the region of the tile the alpha cells
    take the source alpha of the pixel they double; every other cell of
    the canvas is left as it was. *)
Lemma alpha_spec img W H i j d1 :
  rgba img W H → 1 ≤ W → 1 ≤ H → inGrid W H i j →
  length d1 = Z.to_nat (W * 2 * (H * 2) * 4) →
  let tl := tileOf W H i j in
  let outArr := ndarray (W * 2, H * 2, 4) in
  let d' := processAlphaChannel (data img) (alphaInput img tl) d1 (outSlice outArr tl) in
  length d' = length d1 ∧
  ∀ px py c, 0 ≤ px < 2 * W → 0 ≤ py < 2 * H → 0 ≤ c < 4 →
    (inOutputRegion W H i j px py → c = 3 →
       get d' outArr px py c = get (data img) (view img) (px / 2) (py / 2) 3) ∧
    (¬ (inOutputRegion W H i j px py ∧ c = 3) →
       get d' outArr px py c = get d1 outArr px py c).
Proof.
  intros Himg HW HH Hg Hlen.
  pose proof (tile_facts W H i j HW HH Hg) as F.
  pose proof (outSlice_shape W H i j HW HH Hg) as Hshape.
  pose proof (outSlice_decode W H i j HW HH Hg) as Hdec.
  pose proof (alphaInput_index W H i j HW HH Hg img) as Haidx.
  pose proof (fun px py c c' => outSlice_cell W H i j px py c c' HW HH Hg) as Hcell.
  cbv zeta. unfold inOutputRegion in *. cbv zeta in Hcell.
  set (tl := tileOf W H i j) in *. set (outArr := ndarray (W * 2, H * 2, 4)) in *.
  pose proof (writes_processAlphaChannel (data img) (alphaInput img tl) (outSlice outArr tl)
                d1) as (La & A1 & A2).
  cbn beta in La, A1, A2.
  split; [done|].
  intros px py c Hpx Hpy Hc.
  pose proof (canvas_cell_range W H px py c Hpx Hpy Hc) as Hk.
  rewrite <- Hlen in Hk. fold outArr in Hk.
  set (k := index outArr px py c) in *.
  (* a store of the alpha loop into the cell of (px,py,c) *)
  assert (HdecA : ∀ b, alphaStores (data img) (alphaInput img tl) (outSlice outArr tl) k b →
            (t_x tl * 2 ≤ px < t_x tl * 2 + t_outW tl ∧
             t_y tl * 2 ≤ py < t_y tl * 2 + t_outH tl) ∧ c = 3 ∧
            Some b = get (data img) (view img) (px / 2) (py / 2) 3).
  { intros b (u & v & Hu & Hv & Hidx & ->).
    unfold shape0, shape1 in Hu, Hv.
    rewrite Hshape in Hu, Hv. cbn [fst snd] in Hu, Hv.
    apply Hdec in Hidx as (-> & -> & ->); [|done..].
    split; [split; lia|]. split; [done|].
    rewrite !half_local.
    pose proof (tf_outW _ _ _ F). pose proof (tf_outH _ _ _ F).
    pose proof (tf_x _ _ _ F). pose proof (tf_y _ _ _ F).
    pose proof (tf_xStart _ _ _ F). pose proof (tf_yStart _ _ _ F).
    assert (0 ≤ u / 2 < W / nChunks W) by half_bounds.
    assert (0 ≤ v / 2 < H / nChunks H) by half_bounds.
    replace (get (data img) (alphaInput img tl) (u / 2) (v / 2) 3)
      with (get (data img) (view img) (t_x tl + u / 2) (t_y tl + v / 2) 3).
    - apply Some_ToUint8, (get_rgba_is_Some img W H); [done|lia..].
    - unfold get. f_equal. destruct Himg as [Hv' _].
      rewrite Haidx by done.
      rewrite Hv', index_ndarray by lia. done. }
  split.
  - intros Hreg ->. pose proof Hreg as [Hx Hy]. unfold get at 1. fold k.
    destruct (A2 k (ToUint8 (get (data img) (alphaInput img tl)
                     ((px - t_x tl * 2) / 2) ((py - t_y tl * 2) / 2) 3)))
      as (b' & Hb' & Hr); [|done|].
    + exists (px - t_x tl * 2), (py - t_y tl * 2).
      unfold shape0, shape1. rewrite Hshape. cbn [fst snd].
      split; [lia|]. split; [lia|]. split; [|done].
      by apply Hcell.
    + apply HdecA in Hb' as (_ & _ & <-). exact Hr.
  - intros Hno. unfold get. fold k.
    destruct (A1 k) as [?|(b & Hb & _)]; [done|].
    apply HdecA in Hb as (? & ? & _). tauto.
Qed.

(** The body of the loop after the inference call: colours from the crop,
    alpha from the source, nothing outside the region of the tile. *)
Lemma tile_step_spec img W H i j d chunkData :
  rgba img W H → 1 ≤ W → 1 ≤ H → inGrid W H i j →
  length d = Z.to_nat (W * 2 * (H * 2) * 4) →
  let tl := tileOf W H i j in
  let outArr := ndarray (W * 2, H * 2, 4) in
  let d' := processAlphaChannel (data img) (alphaInput img tl)
              (stitch d outArr chunkData tl) (outSlice outArr tl) in
  length d' = length d ∧
  ∀ px py c, 0 ≤ px < 2 * W → 0 ≤ py < 2 * H → 0 ≤ c < 4 →
    (inOutputRegion W H i j px py → c = 3 →
       get d' outArr px py c = get (data img) (view img) (px / 2) (py / 2) 3) ∧
    (inOutputRegion W H i j px py → c < 3 →
       get d' outArr px py c =
       Some (ToUint8 (read (tdata chunkData)
               (index (chunkSlice chunkData tl) (px - t_x tl * 2) (py - t_y tl * 2) c)))) ∧
    (¬ inOutputRegion W H i j px py → get d' outArr px py c = get d outArr px py c).
Proof.
  intros Himg HW HH Hg Hlen.
  destruct (stitch_spec W H i j d chunkData HW HH Hg Hlen) as [Ls Hs].
  destruct (alpha_spec img W H i j _ Himg HW HH Hg (eq_trans Ls Hlen)) as [La Ha].
  cbv zeta. split; [congruence|].
  intros px py c Hpx Hpy Hc.
  destruct (Hs px py c Hpx Hpy Hc) as [Hs1 Hs2].
  destruct (Ha px py c Hpx Hpy Hc) as [Ha1 Ha2].
  split; [done|]. split.
  - intros Hreg Hc3. rewrite Ha2 by lia. by apply Hs1.
  - intros Hreg. rewrite Ha2 by tauto. by apply Hs2.
Qed.

(** ** Loops that await *)

Section Loops.

Context {E : InferenceSession} {I St : Type}.
Implicit Types (body : I → St → M E St) (l : list I).

Lemma foldM_app body l1 l2 d s :
  foldM body (l1 ++ l2) d s =
  match foldM body l1 d s with
  | (s1, Some d1) => foldM body l2 d1 s1
  | (s1, None) => (s1, None)
  end.
Proof.
  revert d s. induction l1 as [|x l1 IH]; intros d s; [done|].
  cbn [app foldM]. unfold bind.
  destruct (body x d s) as [s1 [d1|]]; [apply IH|done].
Qed.

(** An invariant indexed by the iterations already made. *)
Lemma foldM_inv (Inv : list I → St → Prop) body l :
  (∀ l1 x l2 d s s' d',
      l = l1 ++ x :: l2 → Inv l1 d → body x d s = (s', Some d') →
      Inv (l1 ++ [x]) d') →
  ∀ d s s' d', Inv [] d → foldM body l d s = (s', Some d') → Inv l d'.
Proof.
  intros Hstep.
  assert (Hgen : ∀ rest pre d s s' d',
             l = pre ++ rest → Inv pre d →
             foldM body rest d s = (s', Some d') → Inv l d').
  { induction rest as [|x rest IH]; intros pre d s s' d' Hl Hpre Hrun.
    - rewrite app_nil_r in Hl. cbn in Hrun. unfold ret in Hrun.
      by simplify_eq.
    - cbn [foldM] in Hrun. unfold bind in Hrun.
      destruct (body x d s) as [s1 [d1|]] eqn:Hb; [|done].
      eapply (IH (pre ++ [x])); [by rewrite <- app_assoc| |exact Hrun].
      eapply Hstep; eauto. }
  intros d s s' d' H0 Hrun. by eapply (Hgen l []).
Qed.

(** A loop is abandoned exactly when one of its iterations raises. *)
Lemma foldM_None_iff body l d s :
  (foldM body l d s).2 = None ↔
  ∃ l1 x l2 s1 d1, l = l1 ++ x :: l2 ∧ foldM body l1 d s = (s1, Some d1) ∧
                   (body x d1 s1).2 = None.
Proof.
  revert d s. induction l as [|x l IH]; intros d s.
  - split; [done|]. intros (l1 & y & l2 & ? & ? & Hl & _).
    by destruct l1.
  - cbn [foldM]. unfold bind.
    destruct (body x d s) as [s1 [d1|]] eqn:Hb.
    + rewrite IH. split.
      * intros (l1 & y & l2 & s2 & d2 & -> & Hrun & Hy).
        exists (x :: l1), y, l2, s2, d2. split; [done|]. split; [|done].
        cbn [foldM]. unfold bind. by rewrite Hb.
      * intros (l1 & y & l2 & s2 & d2 & Hl & Hrun & Hy).
        destruct l1 as [|x' l1].
        -- cbn in Hl, Hrun. unfold ret in Hrun. simplify_eq.
           rewrite Hb in Hy. done.
        -- cbn [app] in Hl. simplify_eq.
           cbn [foldM] in Hrun. unfold bind in Hrun. rewrite Hb in Hrun.
           by exists l1, y, l2, s2, d2.
    + split; [|done]. intros _.
      exists [], x, l, s, d. split; [done|]. split; [done|]. by rewrite Hb.
Qed.

End Loops.

(** Two nested loops run through the pairs of indices in order. *)
Lemma foldM_nested {E : InferenceSession} {I J St}
  (body2 : I → J → St → M E St) (l : list I) (l' : list J) d s :
  foldM (fun i => foldM (body2 i) l') l d s =
  foldM (fun ij => body2 ij.1 ij.2) (i ← l; j ← l'; [(i, j)]) d s.
Proof.
  revert d s. induction l as [|x l IH]; intros d s; [done|].
  cbn [foldM mbind list_bind]. unfold bind at 1.
  change (list_bind _ _ ?f ?l) with (mbind f l).
  rewrite foldM_app.
  assert (Hrow : ∀ d s, foldM (body2 x) l' d s =
                        foldM (fun ij => body2 ij.1 ij.2) (j ← l'; [(x, j)]) d s).
  { clear. induction l' as [|y l' IH']; intros d s; [done|].
    cbn [foldM mbind list_bind app fst snd]. unfold bind.
    destruct (body2 x y d s) as [s1 [d1|]]; [apply IH'|done]. }
  rewrite <- Hrow.
  destruct (foldM (body2 x) l' d s) as [s1 [d1|]]; [apply IH|done].
Qed.

(** ** One pass *)

Lemma elem_of_grid W H i j : (i, j) ∈ grid W H ↔ inGrid W H i j.
Proof.
  unfold grid, inGrid. rewrite list_elem_of_bind. split.
  - intros (i' & Hj & Hi). apply list_elem_of_bind in Hj as (j' & Hij & Hj).
    apply list_elem_of_singleton in Hij. simplify_eq.
    apply elem_of_seqZ in Hi, Hj. lia.
  - intros [Hi Hj]. exists i. split; [|apply elem_of_seqZ; lia].
    apply list_elem_of_bind. exists j. split; [by apply list_elem_of_singleton|].
    apply elem_of_seqZ. lia.
Qed.

Section Pass.

Context (E : InferenceSession).

Lemma upscaleFrame_unfold img s :
  upscaleFrame E img s =
  match foldM (tileStep E img) (grid (shape0 (view img)) (shape1 (view img)))
          (new_Uint8Array (shape0 (view img) * 2 * (shape1 (view img) * 2) * 4)) s with
  | (s', Some d) =>
      (s', Some (NdArray.mk d (ndarray (shape0 (view img) * 2, shape1 (view img) * 2, 4))))
  | (s', None) => (s', None)
  end.
Proof.
  unfold upscaleFrame, for_loopM, bind, ret. rewrite foldM_nested. reflexivity.
Qed.

Lemma tileStep_Some img ij d s s' d' :
  tileStep E img ij d s = (s', Some d') ↔
  ∃ chunkData,
    runSuperRes E (subArr img (tileOf (shape0 (view img)) (shape1 (view img)) ij.1 ij.2)) s
      = (s', Some chunkData) ∧
    d' = processAlphaChannel (data img)
           (alphaInput img (tileOf (shape0 (view img)) (shape1 (view img)) ij.1 ij.2))
           (stitch d (ndarray (shape0 (view img) * 2, shape1 (view img) * 2, 4)) chunkData
              (tileOf (shape0 (view img)) (shape1 (view img)) ij.1 ij.2))
           (outSlice (ndarray (shape0 (view img) * 2, shape1 (view img) * 2, 4))
              (tileOf (shape0 (view img)) (shape1 (view img)) ij.1 ij.2)).
Proof.
  unfold tileStep, processTile.
  destruct (runSuperRes E _ s) as [s1 [cd|]]; split.
  - intros [= <- <-]. by exists cd.
  - intros (cd' & [= -> ->] & ->). done.
  - done.
  - by intros (cd' & [=] & _).
Qed.

Lemma tileStep_None img ij d s :
  (tileStep E img ij d s).2 = None ↔
  (runSuperRes E (subArr img (tileOf (shape0 (view img)) (shape1 (view img)) ij.1 ij.2)) s).2
    = None.
Proof.
  unfold tileStep, processTile.
  by destruct (runSuperRes E _ s) as [s1 [cd|]].
Qed.

Lemma rgba_shape img W H : rgba img W H → shape0 (view img) = W ∧ shape1 (view img) = H.
Proof. intros [-> _]. done. Qed.

(** What a pass establishes for the pixels of its tiles, given what one
    tile establishes ([Q]); the rest of the canvas stays zero. *)
Lemma pass_spec img W H (Q : Z → Z → Z → option byte → Prop) :
  rgba img W H → 1 ≤ W → 1 ≤ H →
  (∀ i j d s s' d',
      inGrid W H i j → length d = Z.to_nat (W * 2 * (H * 2) * 4) →
      tileStep E img (i, j) d s = (s', Some d') →
      ∀ px py c, 0 ≤ px < 2 * W → 0 ≤ py < 2 * H → 0 ≤ c < 4 →
                 inOutputRegion W H i j px py →
                 Q px py c (get d' (ndarray (W * 2, H * 2, 4)) px py c)) →
  ∀ s s' out,
    upscaleFrame E img s = (s', Some out) →
    view out = ndarray (W * 2, H * 2, 4) ∧
    length (data out) = Z.to_nat (W * 2 * (H * 2) * 4) ∧
    ∀ px py c, 0 ≤ px < 2 * W → 0 ≤ py < 2 * H → 0 ≤ c < 4 →
      (covered W H px py → Q px py c (get (data out) (view out) px py c)) ∧
      (¬ covered W H px py → get (data out) (view out) px py c = Some x00).
Proof.
  intros Himg HW HH HQ s s' out Hrun.
  destruct (rgba_shape img W H Himg) as [HsW HsH].
  rewrite upscaleFrame_unfold, HsW, HsH in Hrun.
  set (outArr := ndarray (W * 2, H * 2, 4)) in *.
  set (L := Z.to_nat (W * 2 * (H * 2) * 4)).
  destruct (foldM _ _ _ s) as [s1 [d|]] eqn:Hfold; [|done].
  injection Hrun as <- <-. cbn [view data].
  pose (Inv := fun (l1 : list (Z * Z)) (d : Uint8Array) =>
    length d = L ∧
    ∀ px py c, 0 ≤ px < 2 * W → 0 ≤ py < 2 * H → 0 ≤ c < 4 →
      ((∃ i j, (i, j) ∈ l1 ∧ inGrid W H i j ∧ inOutputRegion W H i j px py) →
         Q px py c (get d outArr px py c)) ∧
      ((∀ i j, (i, j) ∈ l1 → ¬ inOutputRegion W H i j px py) →
         get d outArr px py c = Some x00)).
  assert (Hfin : Inv (grid W H) d).
  { eapply (foldM_inv Inv); [|split|exact Hfold].
    - intros l1 [i j] l2 d0 s0 s0' d0' Hl [Hlen Hpix] Hstep.
      assert (Hg : inGrid W H i j).
      { apply elem_of_grid. rewrite Hl. apply elem_of_app. right. left. }
      pose proof (HQ i j d0 s0 s0' d0' Hg Hlen Hstep) as HQ'.
      apply tileStep_Some in Hstep as (cd & _ & Hd'). cbn [fst snd] in Hd'.
      rewrite HsW, HsH in Hd'.
      destruct (tile_step_spec img W H i j d0 cd Himg HW HH Hg Hlen) as [Hlen' Hspec].
      rewrite <- Hd' in Hlen', Hspec. fold outArr in Hspec.
      split; [congruence|].
      intros px py c Hpx Hpy Hc.
      destruct (Hspec px py c Hpx Hpy Hc) as (_ & _ & Hframe).
      destruct (Hpix px py c Hpx Hpy Hc) as [Hdone Hzero].
      destruct (decide (t_x (tileOf W H i j) * 2 ≤ px
                          < t_x (tileOf W H i j) * 2 + t_outW (tileOf W H i j) ∧
                        t_y (tileOf W H i j) * 2 ≤ py
                          < t_y (tileOf W H i j) * 2 + t_outH (tileOf W H i j)))
        as [Hreg|Hreg]; change (inOutputRegion W H i j px py) in Hreg ||
                        change (¬ inOutputRegion W H i j px py) in Hreg.
      + split; [intros _; by apply HQ'|].
        intros Hno. destruct (Hno i j); [|done].
        apply elem_of_app. right. left.
      + rewrite (Hframe Hreg). split.
        * intros (i' & j' & Hin & Hg' & Hreg'). apply Hdone.
          apply elem_of_app in Hin as [Hin|Hin]; [by exists i', j'|].
          apply list_elem_of_singleton in Hin. by simplify_eq.
        * intros Hno. apply Hzero. intros i' j' Hin. apply Hno.
          apply elem_of_app. by left.
    - apply length_new_Uint8Array.
    - intros px py c Hpx Hpy Hc. split.
      + intros (? & ? & Hin & _). by apply elem_of_nil in Hin.
      + intros _. unfold get, outArr. rewrite index_ndarray by lia.
        apply read_new_Uint8Array.
        pose proof (flat_range (W * 2) (H * 2) 4 px py c). lia. }
  destruct Hfin as [Hlen Hpix].
  split; [done|]. split; [done|].
  intros px py c Hpx Hpy Hc.
  destruct (Hpix px py c Hpx Hpy Hc) as [Hdone Hzero]. split.
  - intros (i & j & Hg & Hreg). apply Hdone. exists i, j.
    split; [by apply elem_of_grid|done].
  - intros Hno. apply Hzero. intros i j Hin Hreg. apply Hno.
    exists i, j. split; [by apply elem_of_grid|done].
Qed.

(** A pass completes when every inference call of it yields a tensor, and
    only then. *)
Lemma upscaleFrame_None_iff img s :
  (upscaleFrame E img s).2 = None ↔ inferenceFailsInPass E img s.
Proof.
  rewrite upscaleFrame_unfold. unfold inferenceFailsInPass.
  destruct (foldM _ _ _ s) as [s1 [d|]] eqn:Hfold; cbn [snd].
  - split; [done|].
    intros (l1 & ij & l2 & s2 & d2 & Hl & Hpre & Hfail).
    assert ((foldM (tileStep E img) (grid (shape0 (view img)) (shape1 (view img)))
               (new_Uint8Array (shape0 (view img) * 2 * (shape1 (view img) * 2) * 4)) s).2
            = None) as Hnone; [|by rewrite Hfold in Hnone].
    apply foldM_None_iff. exists l1, ij, l2, s2, d2.
    split; [done|]. split; [done|]. by apply tileStep_None.
  - split; [|done]. intros _.
    assert ((foldM (tileStep E img) (grid (shape0 (view img)) (shape1 (view img)))
               (new_Uint8Array (shape0 (view img) * 2 * (shape1 (view img) * 2) * 4)) s).2
            = None) as Hnone by (by rewrite Hfold).
    apply foldM_None_iff in Hnone as (l1 & ij & l2 & s2 & d2 & Hl & Hpre & Hfail).
    exists l1, ij, l2, s2, d2. split; [done|]. split; [done|].
    by apply tileStep_None in Hfail.
Qed.

Lemma upscaleFrame_total img s :
  engineTotal E → is_Some (upscaleFrame E img s).2.
Proof.
  intros Htot.
  destruct ((upscaleFrame E img s).2) eqn:Hr; [done|].
  apply upscaleFrame_None_iff in Hr as (l1 & ij & l2 & s1 & d1 & _ & _ & Hfail).
  unfold runSuperRes in Hfail.
  destruct (Htot s1 (prepareImage (subArr img
             (tileOf (shape0 (view img)) (shape1 (view img)) ij.1 ij.2)))) as [r Hr].
  congruence.
Qed.

(** The geometry of the result does not depend on the image being RGBA. *)
Lemma upscaleFrame_shape img s s' out :
  upscaleFrame E img s = (s', Some out) →
  view out = ndarray (shape0 (view img) * 2, shape1 (view img) * 2, 4) ∧
  length (data out) = Z.to_nat (shape0 (view img) * 2 * (shape1 (view img) * 2) * 4).
Proof.
  rewrite upscaleFrame_unfold.
  destruct (foldM _ _ _ s) as [s1 [d|]] eqn:Hfold; [|done].
  intros [= <- <-]. split; [done|]. cbn [data].
  eapply (foldM_inv (fun _ d => length d = Z.to_nat _)); [| |exact Hfold].
  - intros l1 ij l2 d0 s0 s0' d0' _ Hlen Hstep.
    apply tileStep_Some in Hstep as (cd & _ & ->).
    rewrite <- Hlen.
    etrans; [apply (writes_processAlphaChannel _ _ _ _)|].
    apply (writes_assign _ _ _ _).
  - apply length_new_Uint8Array.
Qed.

End Pass.

(** ** Several passes *)

Section MultiPass.

Context (E : InferenceSession).

Lemma upscaleFrame_rgba img W H s s' out :
  rgba img W H → upscaleFrame E img s = (s', Some out) → rgba out (W * 2) (H * 2).
Proof.
  intros Himg Hrun. destruct (rgba_shape img W H Himg) as [HW HH].
  apply upscaleFrame_shape in Hrun. by rewrite HW, HH in Hrun.
Qed.

Lemma passes_length l l' img s :
  length l = length l' → passes E l img s = passes E l' img s.
Proof.
  revert l' img s. induction l as [|x l IH]; intros [|x' l'] img s Hlen; try done.
  unfold passes. cbn [foldM]. unfold bind.
  destruct (upscaleFrame E img s) as [s1 [a|]]; [|done].
  apply IH. by injection Hlen.
Qed.

Lemma passes_rgba l img W H s s' out :
  rgba img W H → passes E l img s = (s', Some out) →
  rgba out (W * 2 ^ Z.of_nat (length l)) (H * 2 ^ Z.of_nat (length l)).
Proof.
  revert img W H s. induction l as [|x l IH]; intros img W H s Himg Hrun.
  - cbn in Hrun. unfold ret in Hrun. simplify_eq. cbn [length Z.of_nat].
    by rewrite Z.pow_0_r, !Z.mul_1_r.
  - unfold passes in Hrun. cbn [foldM] in Hrun. unfold bind in Hrun.
    destruct (upscaleFrame E img s) as [s1 [a|]] eqn:Hpass; [|done].
    pose proof (upscaleFrame_rgba img W H s s1 a Himg Hpass) as Ha.
    pose proof (IH a _ _ s1 Ha Hrun) as Hout.
    cbn [length]. rewrite Nat2Z.inj_succ, Z.pow_succ_r by lia.
    by rewrite !Z.mul_assoc.
Qed.

Lemma passes_total l img s : engineTotal E → is_Some (passes E l img s).2.
Proof.
  intros Htot. revert img s. induction l as [|x l IH]; intros img s; [by eexists|].
  unfold passes. cbn [foldM]. unfold bind.
  destruct (upscaleFrame_total E img s Htot) as [a Ha].
  destruct (upscaleFrame E img s) as [s1 o]. cbn in Ha. subst o. apply IH.
Qed.

Lemma multiUpscale_passes img N s : multiUpscale E img N s = passes E (seqZ 0 N) img s.
Proof. reflexivity. Qed.

(** The conversion of an image is abandoned exactly when an inference
    call of one of its passes yields nothing. *)
Lemma multiUpscale_None_iff img N s :
  (multiUpscale E img N s).2 = None ↔ inferenceFailsInImage E img N s.
Proof.
  rewrite multiUpscale_passes. unfold passes. rewrite foldM_None_iff. split.
  - intros (l1 & x & l2 & sk & imgk & Hl & Hpre & Hfail).
    exists (Z.of_nat (length l1)), sk, imgk.
    assert (Hlen : length (seqZ 0 N) = length (l1 ++ x :: l2)) by by rewrite Hl.
    rewrite length_seqZ, length_app in Hlen. cbn [length] in Hlen.
    split; [lia|]. split.
    + rewrite multiUpscale_passes, <- Hpre. apply passes_length.
      rewrite length_seqZ. lia.
    + by apply upscaleFrame_None_iff.
  - intros (k & sk & imgk & Hk & Hpre & Hfail).
    exists (seqZ 0 k), k, (seqZ (k + 1) (N - (k + 1))), sk, imgk.
    split; [|split].
    + replace N with (k + (N - k)) at 1 by lia.
      rewrite seqZ_app by lia. f_equal.
      rewrite seqZ_cons by lia. f_equal. f_equal; lia.
    + exact Hpre.
    + by apply upscaleFrame_None_iff.
Qed.

End MultiPass.

(** ** Chunk extraction on a store *)

Lemma for_loop_sim {A B} (R : A → B → Prop) n (f : Z → A → A) (g : Z → B → B) a b :
  R a b → (∀ i a b, R a b → R (f i a) (g i b)) →
  R (for_loop n f a) (for_loop n g b).
Proof.
  intros Hab Hstep. unfold for_loop.
  revert a b Hab. induction (seqZ 0 n) as [|x l IH]; intros a b Hab; [done|].
  cbn [foldl]. apply IH, Hstep, Hab.
Qed.

Module StoreFacts.
Import Store.

(** With source and destination in different buffers, [assign_at] is the
    [assign] of the buffers' contents. *)
Lemma assign_at_pure (h : store) dst dv src sv d sdata :
  dst ≠ src → h !! dst = Some d → h !! src = Some sdata →
  assign_at h dst dv src sv = <[dst := assign d dv sdata sv]> h.
Proof.
  intros Hne Hd Hs. unfold assign_at, assign.
  apply (for_loop_sim (fun (hh : store) dd => hh = <[dst := dd]> h));
    [by rewrite insert_id|].
  intros i0 hh dd ->.
  apply (for_loop_sim (fun (hh : store) dd => hh = <[dst := dd]> h)); [done|].
  intros i1 hh dd' ->.
  apply (for_loop_sim (fun (hh : store) dd => hh = <[dst := dd]> h)); [done|].
  intros i2 hh dd'' ->.
  unfold store_at, load.
  rewrite lookup_insert_ne, Hs by done. cbn.
  by rewrite alter_insert_eq.
Qed.

Lemma extractChunk_spec (h : store) src sdata iv tl :
  h !! src = Some sdata →
  ∃ l, h !! l = None ∧
       extractChunk h src iv tl =
         (<[l := data (subArr (NdArray.mk sdata iv) tl)]> h,
          (l, view (subArr (NdArray.mk sdata iv) tl))).
Proof.
  intros Hs. unfold extractChunk, alloc.
  set (l := fresh (dom h)).
  assert (Hl : h !! l = None) by (apply not_elem_of_dom, is_fresh).
  exists l. split; [done|].
  assert (l ≠ src) by congruence.
  erewrite assign_at_pure;
    [|done|apply lookup_insert_eq|by rewrite lookup_insert_ne].
  by rewrite insert_insert_eq.
Qed.

Lemma extractMany_spec n (h : store) src sdata iv tl :
  h !! src = Some sdata →
  ∃ h' rs, extractMany n h src iv tl = (h', rs) ∧ h ⊆ h' ∧ length rs = n ∧
           Forall (fun r => h' !! r.1 = Some (data (subArr (NdArray.mk sdata iv) tl)) ∧
                            r.2 = view (subArr (NdArray.mk sdata iv) tl) ∧
                            h !! r.1 = None) rs.
Proof.
  revert h. induction n as [|n IH]; intros h Hs.
  - exists h, []. by repeat split.
  - cbn [extractMany].
    destruct (extractChunk_spec h src sdata iv tl Hs) as (l & Hl & ->).
    assert (Hsub : h ⊆ <[l := data (subArr (NdArray.mk sdata iv) tl)]> h)
      by by apply insert_subseteq.
    destruct (IH (<[l := data (subArr (NdArray.mk sdata iv) tl)]> h))
      as (h' & rs & -> & Hsub' & Hlen & Hall).
    { eapply lookup_weaken; eauto. }
    exists h', ((l, view (subArr (NdArray.mk sdata iv) tl)) :: rs).
    split; [done|]. split; [by etrans|]. split; [by rewrite <- Hlen|].
    constructor.
    + cbn [fst snd]. split; [|done].
      eapply lookup_weaken; [apply lookup_insert_eq|done].
    + eapply Forall_impl; [exact Hall|].
      intros [l' v'] (? & ? & Hnone). cbn [fst snd] in *.
      split; [done|]. split; [done|].
      destruct (h !! l') eqn:Hl'; [|done].
      eapply lookup_weaken in Hl'; [|exact Hsub]. congruence.
Qed.

End StoreFacts.

(** The copy holds the pixels of the padded region, in row-major order. *)
Lemma subArr_contents img W H i j a b c :
  rgba img W H → 1 ≤ W → 1 ≤ H → inGrid W H i j →
  let tl := tileOf W H i j in
  0 ≤ a < t_inW tl → 0 ≤ b < t_inH tl → 0 ≤ c < 4 →
  view (subArr img tl) = ndarray (t_inW tl, t_inH tl, 4) ∧
  length (data (subArr img tl)) = Z.to_nat (t_inW tl * t_inH tl * 4) ∧
  get (data (subArr img tl)) (view (subArr img tl)) a b c =
    get (data img) (view img) (t_xStart tl + a) (t_yStart tl + b) c.
Proof.
  intros Himg HW HH Hg.
  pose proof (tile_facts W H i j HW HH Hg) as F.
  pose proof (inSlice_shape W H i j HW HH Hg img) as Hsh.
  pose proof (inSlice_index W H i j HW HH Hg img) as Hidx.
  cbv zeta. set (tl := tileOf W H i j) in *.
  intros Ha Hb Hc. unfold subArr. cbn [view data]. rewrite Hsh.
  pose proof (writes_assign (ndarray (t_inW tl, t_inH tl, 4)) (data img) (inSlice img tl)
                (new_Uint8Array (t_inW tl * t_inH tl * 4))) as (Hlen & _ & Hw).
  cbn beta in Hlen, Hw. rewrite length_new_Uint8Array in Hlen, Hw.
  split; [done|]. split; [done|].
  pose proof (tf_xStart _ _ _ F). pose proof (tf_yStart _ _ _ F).
  pose proof (tf_inW _ _ _ F). pose proof (tf_inH _ _ _ F).
  set (k := index (ndarray (t_inW tl, t_inH tl, 4)) a b c).
  assert (Hk : k = (a * t_inH tl + b) * 4 + c)
    by (subst k; rewrite index_ndarray by lia; done).
  pose proof (flat_range (t_inW tl) (t_inH tl) 4 a b c Ha Hb Hc) as Hr.
  destruct (Hw k (ToUint8 (read (data img) (index (inSlice img tl) a b c))))
    as (b' & (a' & b'' & c' & Ha' & Hb' & Hc' & Hk' & ->) & Hread); [|lia|].
  - exists a, b, c. unfold shape0, shape1, shape2. cbn [shape ndarray fst snd]. done.
  - unfold shape0, shape1, shape2 in Ha', Hb', Hc'. cbn [shape ndarray fst snd] in Ha', Hb', Hc'.
    rewrite Hk, index_ndarray in Hk' by lia.
    apply flat_inj in Hk' as (<- & <- & <-); [|lia..].
    unfold get. fold k. rewrite Hread.
    destruct Himg as [Hv Hl]. rewrite Hidx by done.
    rewrite Hv, index_ndarray by lia.
    apply Some_ToUint8, read_is_Some. rewrite Hl.
    pose proof (flat_range W H 4 (t_xStart tl + a) (t_yStart tl + b) c). lia.
Qed.

(** ** The identity-doubling engine *)

Lemma flat_decode s1 s2 a b c :
  0 ≤ b < s1 → 0 ≤ c < s2 →
  ((a * s1 + b) * s2 + c) / (s1 * s2) = a ∧
  ((a * s1 + b) * s2 + c) / s2 mod s1 = b ∧
  ((a * s1 + b) * s2 + c) mod s2 = c.
Proof.
  intros Hb Hc.
  assert (Hq : ((a * s1 + b) * s2 + c) / s2 = a * s1 + b)
    by (symmetry; apply (Z.div_unique _ _ _ c); lia).
  split; [|split].
  - symmetry. apply (Z.div_unique _ _ _ (b * s2 + c)); nia.
  - rewrite Hq. symmetry. apply (Z.mod_unique _ _ a); lia.
  - symmetry. apply (Z.mod_unique _ _ (a * s1 + b)); lia.
Qed.

Lemma doubleTensor_read d w h A B c :
  0 ≤ A < 2 * w → 0 ≤ B < 2 * h → 0 ≤ c < 4 →
  read (tdata (doubleTensor (mkTensor d (w, h, 4)))) ((A * (2 * h) + B) * 4 + c) =
  Some (ToUint8 (get d (ndarray (w, h, 4)) (A / 2) (B / 2) c)).
Proof.
  intros HA HB Hc. unfold doubleTensor. cbn [dims tdata].
  pose proof (flat_range (2 * w) (2 * h) 4 A B c HA HB Hc) as Hr.
  unfold read. rewrite bool_decide_eq_true_2 by lia.
  etrans; [apply list_lookup_fmap|].
  rewrite lookup_seqZ_lt by lia. cbn [fmap option_fmap option_map].
  rewrite Z2Nat.id, Z.add_0_l by lia.
  destruct (flat_decode (2 * h) 4 A B c HB Hc) as (-> & -> & ->). done.
Qed.

Section Doubling.

Context (E : InferenceSession) (Hdbl : engineDoubles E).

(** With the identity-doubling engine, the colour channels of the pixels
    that the tiles cover replicate the source. *)
Lemma pass_rgb_doubling img W H s s' out :
  rgba img W H → 1 ≤ W → 1 ≤ H →
  upscaleFrame E img s = (s', Some out) →
  ∀ px py c, 0 ≤ px < 2 * W → 0 ≤ py < 2 * H → 0 ≤ c < 3 →
    covered W H px py →
    get (data out) (view out) px py c = get (data img) (view img) (px / 2) (py / 2) c.
Proof.
  intros Himg HW HH Hrun px py c Hpx Hpy Hc Hcov.
  destruct (rgba_shape img W H Himg) as [HsW HsH].
  eapply (pass_spec E img W H
            (fun px py c v => c < 3 → v = get (data img) (view img) (px / 2) (py / 2) c))
    in Hrun as (_ & _ & Hpix); [|done..|].
  { destruct (Hpix px py c Hpx Hpy ltac:(lia)) as [Hq _]. apply Hq; [done|lia]. }
  clear px py c Hpx Hpy Hc Hcov.
  intros i j d s0 s0' d' Hg Hlen Hstep px py c Hpx Hpy Hc Hreg Hc3.
  apply tileStep_Some in Hstep as (cd & Hcd & Hd'). cbn [fst snd] in Hcd, Hd'.
  rewrite HsW, HsH in Hcd, Hd'.
  destruct (tile_step_spec img W H i j d cd Himg HW HH Hg Hlen) as [_ Hspec].
  rewrite <- Hd' in Hspec.
  destruct (Hspec px py c Hpx Hpy Hc) as (_ & Hcol & _).
  rewrite (Hcol Hreg Hc3). clear Hspec Hcol Hd'.
  pose proof (tile_facts W H i j HW HH Hg) as F.
  pose proof (fun a b c => subArr_contents img W H i j a b c Himg HW HH Hg) as Hsub.
  cbv zeta in Hsub. destruct Hreg as [Hx Hy].
  set (tl := tileOf W H i j) in *.
  pose proof (tf_xStart _ _ _ F). pose proof (tf_yStart _ _ _ F).
  pose proof (tf_cropW _ _ _ F). pose proof (tf_cropH _ _ _ F).
  pose proof (tf_outW _ _ _ F). pose proof (tf_outH _ _ _ F).
  pose proof (tf_cW _ _ _ F). pose proof (tf_cH _ _ _ F).
  (* the tensor that the engine returned *)
  assert (Hcd' : cd = doubleTensor (mkTensor (data (subArr img tl)) (t_inW tl, t_inH tl, 4))).
  { unfold runSuperRes in Hcd. pose proof (Hdbl s0 (prepareImage (subArr img tl))) as Hd.
    rewrite Hcd in Hd. cbn [snd] in Hd. injection Hd as ->.
    unfold prepareImage. f_equal. f_equal.
    destruct (Hsub 0 0 0) as (-> & _); [lia..|done]. }
  set (u := px - t_x tl * 2). set (v := py - t_y tl * 2).
  set (A := (t_x tl - t_xStart tl) * 2 + u).
  set (B := (t_y tl - t_yStart tl) * 2 + v).
  assert (HA : 0 ≤ A < 2 * t_inW tl) by (subst A u; lia).
  assert (HB : 0 ≤ B < 2 * t_inH tl) by (subst B v; lia).
  assert (Hidx : index (chunkSlice cd tl) u v c = (A * (2 * t_inH tl) + B) * 4 + c).
  { unfold chunkSlice. rewrite Hcd'. unfold doubleTensor. cbn [dims].
    rewrite index_hi, index_lo, index_ndarray by lia. subst A B. lia. }
  rewrite Hidx, Hcd', doubleTensor_read by lia.
  change (ToUint8 (Some ?x)) with x.
  assert (HA2 : A / 2 = t_x tl - t_xStart tl + u / 2) by (subst A; apply half_local).
  assert (HB2 : B / 2 = t_y tl - t_yStart tl + v / 2) by (subst B; apply half_local).
  assert (0 ≤ u / 2 < W / nChunks W)
    by half_bounds.
  assert (0 ≤ v / 2 < H / nChunks H)
    by half_bounds.
  destruct (Hsub (A / 2) (B / 2) c) as (Hview & _ & Hget); [lia..|].
  rewrite Hview in Hget. rewrite Hget.
  replace (t_xStart tl + A / 2) with (px / 2); cycle 1.
  { rewrite HA2. replace px with (t_x tl * 2 + u) at 1 by (subst u; lia).
    rewrite half_local. lia. }
  replace (t_yStart tl + B / 2) with (py / 2); cycle 1.
  { rewrite HB2. replace py with (t_y tl * 2 + v) at 1 by (subst v; lia).
    rewrite half_local. lia. }
  apply Some_ToUint8, (get_rgba_is_Some img W H); [done| | |lia].
  - half_bounds.
  - half_bounds.
Qed.

End Doubling.

(** ** The batch driver *)

Section DriverFacts.

Context (E : InferenceSession) (P : Platform E).
Context (inputDir outputDir : string) (N : Z).

Lemma bulkStep_processFile w c file :
  bulkStep E P inputDir outputDir N (w, c) file =
  ((processFile E P inputDir outputDir N file w).1,
   if (processFile E P inputDir outputDir N file w).2 then c + 1 else c).
Proof.
  unfold bulkStep, processFile.
  by destruct (processImage E P _ _ N w) as [w' []].
Qed.

(** The counter only adds up the successes of the files. *)
Lemma bulk_foldl_count l w c :
  foldl (bulkStep E P inputDir outputDir N) (w, c) l =
  ((bulkLoop E P inputDir outputDir N l w).1,
   c + (bulkLoop E P inputDir outputDir N l w).2).
Proof.
  unfold bulkLoop. revert w c. induction l as [|f l IH]; intros w c.
  - cbn. f_equal. lia.
  - cbn [foldl]. rewrite !bulkStep_processFile.
    rewrite IH. rewrite (IH _ (if (processFile E P inputDir outputDir N f w).2 then _ else _)).
    cbn [fst snd].
    f_equal. destruct (processFile E P inputDir outputDir N f w).2; lia.
Qed.

Lemma bulkLoop_cons f l w :
  bulkLoop E P inputDir outputDir N (f :: l) w =
  ((bulkLoop E P inputDir outputDir N l (processFile E P inputDir outputDir N f w).1).1,
   (if (processFile E P inputDir outputDir N f w).2 then 1 else 0) +
   (bulkLoop E P inputDir outputDir N l (processFile E P inputDir outputDir N f w).1).2).
Proof.
  unfold bulkLoop at 1. cbn [foldl]. rewrite bulkStep_processFile, bulk_foldl_count.
  by destruct (processFile E P inputDir outputDir N f w).2.
Qed.

Lemma bulkLoop_app l1 l2 w :
  bulkLoop E P inputDir outputDir N (l1 ++ l2) w =
  ((bulkLoop E P inputDir outputDir N l2 (bulkLoop E P inputDir outputDir N l1 w).1).1,
   (bulkLoop E P inputDir outputDir N l1 w).2 +
   (bulkLoop E P inputDir outputDir N l2 (bulkLoop E P inputDir outputDir N l1 w).1).2).
Proof.
  revert w. induction l1 as [|f l1 IH]; intros w.
  - change (bulkLoop E P inputDir outputDir N [] w) with (w, 0).
    cbn [app fst snd]. by destruct (bulkLoop E P inputDir outputDir N l2 w).
  - cbn [app]. rewrite !bulkLoop_cons, IH. cbn [fst snd]. f_equal. lia.
Qed.

Lemma allSucceed_count l w :
  allSucceed E P inputDir outputDir N l w →
  (bulkLoop E P inputDir outputDir N l w).2 = Z.of_nat (length l).
Proof.
  revert w. induction l as [|f l IH]; intros w Hall; [done|].
  destruct Hall as [Hf Hl]. rewrite bulkLoop_cons. cbn [snd length].
  rewrite Hf, (IH _ Hl). lia.
Qed.

(** An inference failure makes [processImage] return [false] before the
    output file is written. *)
Lemma processFile_inference_failure f w :
  failsByInference E P inputDir N f w →
  (processFile E P inputDir outputDir N f w).2 = false ∧
  files (processFile E P inputDir outputDir N f w).1 = files w.
Proof.
  intros (buf & d & wd & ht & ch & Hread & Hraw & Hfail).
  apply multiUpscale_None_iff in Hfail.
  unfold processFile, processImage. rewrite Hread, Hraw.
  destruct (multiUpscale E _ N (superSession w)) as [s' [out|]]; done.
Qed.

End DriverFacts.

(** * The claims of the specification *)

(** Output column 2048 of the pass over a 1025 x 1 image. *)
Lemma strip_1025_uncovered : ¬ covered 1025 1 2048 0.
Proof.
  intros Hc. apply covered_iff in Hc as [Hx _]; [|lia..].
  change (nChunks 1025 * (1025 / nChunks 1025)) with 1024 in Hx. lia.
Qed.

(** C1 (tile-grid coverage), evaluated on a 1025 x 1 image.  The pass makes
    two tiles of width 512; the extent [min(dim, pos + chunk)] of the final
    tile is 1024 and not 1025, and output column 2048, inside the canvas
    [[0, 2050)], lies in no [outputRegion].  (No two regions overlap, see
    [outputRegions_disjoint]; the canvas is covered exactly when each
    dimension is a multiple of its number of chunks, see
    [coverage_complete_iff].) *)
Theorem coverage_gap_1025 :
  nChunks 1025 = 2 ∧
  Z.min 1025 (t_x (tileOf 1025 1 0 1) + 1025 / nChunks 1025) = 1024 ∧
  0 ≤ 2048 < 2 * 1025 ∧ 0 ≤ 0 < 2 * 1 ∧
  ¬ covered 1025 1 2048 0.
Proof.
  split; [reflexivity|]. split; [reflexivity|]. split; [lia|]. split; [lia|].
  apply strip_1025_uncovered.
Qed.

(** C2 (alpha law), as the code has it.  When a pass over a W x H RGBA
    image returns a canvas, which it does when every inference call of the
    pass yields a buffer, the alpha of every output pixel [(x,y)] that the
    tile grid covers, [x < 2*nChunksW*chunkW] and [y < 2*nChunksH*chunkH],
    is the source alpha at [(x/2, y/2)], whatever the engine and whatever
    the buffers it returned. *)
Theorem alpha_law_covered (E : InferenceSession) img W H s s' out :
  rgba img W H → 1 ≤ W → 1 ≤ H →
  upscaleFrame E img s = (s', Some out) →
  ∀ x y,
    0 ≤ x < 2 * (nChunks W * (W / nChunks W)) →
    0 ≤ y < 2 * (nChunks H * (H / nChunks H)) →
    get (data out) (view out) x y 3 = get (data img) (view img) (x / 2) (y / 2) 3.
Proof.
  intros Himg HW HH Hrun x y Hx Hy.
  destruct (chunk_bounds W HW) as [_ [HnW _]].
  destruct (chunk_bounds H HH) as [_ [HnH _]].
  destruct (rgba_shape img W H Himg) as [HsW HsH].
  eapply (pass_spec E img W H
            (fun px py c v => c = 3 → v = get (data img) (view img) (px / 2) (py / 2) 3))
    in Hrun as (_ & _ & Hpix); [|done..|].
  - destruct (Hpix x y 3) as [Hq _]; [lia..|].
    apply Hq; [|done]. apply covered_iff; [done..|lia].
  - intros i j d s0 s0' d' Hg Hlen Hstep px py c Hpx Hpy Hc Hreg ->.
    apply tileStep_Some in Hstep as (cd & _ & ->). cbn [fst snd].
    rewrite HsW, HsH.
    destruct (tile_step_spec img W H i j d cd Himg HW HH Hg Hlen) as [_ Hspec].
    destruct (Hspec px py 3 Hpx Hpy Hc) as (Ha & _ & _). by apply Ha.
Qed.

Lemma alpha_law_covered_witness :
  get [x09; x09; x09; x04; x00; x00; x00; x04; x00; x00; x00; x04; x00; x00; x00; x04]
      (ndarray (2, 2, 4)) 1 1 3
  = get (data pixel1) (view pixel1) (1 / 2) (1 / 2) 3.
Proof.
  apply (alpha_law_covered onePixelEngine pixel1 1 1 tt tt
           (NdArray.mk [x09; x09; x09; x04; x00; x00; x00; x04;
                        x00; x00; x00; x04; x00; x00; x00; x04] (ndarray (2, 2, 4)))).
  - split; reflexivity.
  - lia.
  - lia.
  - reflexivity.
  - split; by vm_compute.
  - split; by vm_compute.
Defined.

(** C2 as stated fails when the inference operation fails: the pass over
    a one-pixel image with an engine whose call fails returns no canvas at
    all, so no output alpha equals the source alpha. *)
Lemma alpha_law_fails_on_inference_failure :
  rgba pixel1 1 1 ∧
  ¬ ∃ s' out, upscaleFrame failingEngine pixel1 tt = (s', Some out) ∧
              get (data out) (view out) 0 0 3 = get (data pixel1) (view pixel1) 0 0 3.
Proof.
  split; [split; reflexivity|].
  intros (s' & out & Hrun & _). vm_compute in Hrun. discriminate.
Qed.

(** C3.  For an RGBA image of dimensions W x H, W,H >= 1, and an integer
    upscaleFactor N >= 0: with N = 0, [multiUpscale] returns the input
    unchanged; a buffer that [multiUpscale] returns has the shape
    [(W*2^N, H*2^N, 4)] and that many elements; and it does return one when
    every call of the engine yields a tensor. *)
Theorem multiUpscale_dimensions (E : InferenceSession) img W H N s :
  rgba img W H → 1 ≤ W → 1 ≤ H → 0 ≤ N →
  (N = 0 → multiUpscale E img N s = (s, Some img)) ∧
  (∀ s' out, multiUpscale E img N s = (s', Some out) →
     shape (view out) = (W * 2 ^ N, H * 2 ^ N, 4) ∧
     view out = ndarray (W * 2 ^ N, H * 2 ^ N, 4) ∧
     Z.of_nat (length (data out)) = W * 2 ^ N * (H * 2 ^ N) * 4) ∧
  (engineTotal E → ∃ s' out, multiUpscale E img N s = (s', Some out)).
Proof.
  intros Himg HW HH HN. split; [|split].
  - intros ->. reflexivity.
  - intros s' out Hrun. rewrite multiUpscale_passes in Hrun.
    apply (passes_rgba E _ img W H) in Hrun as [Hv Hl]; [|done].
    rewrite length_seqZ, Z2Nat.id in Hv, Hl by lia.
    split; [by rewrite Hv|]. split; [done|].
    rewrite Hl, Z2Nat.id; [done|].
    assert (0 < 2 ^ N) by (apply Z.pow_pos_nonneg; lia). nia.
  - intros Htot. rewrite multiUpscale_passes.
    destruct (passes_total E (seqZ 0 N) img s Htot) as [out Hout].
    destruct (passes E (seqZ 0 N) img s) as [s' o]. cbn in Hout. subst o.
    by exists s', out.
Qed.

Lemma multiUpscale_dimensions_witness :
  ∃ s' out, multiUpscale doublingEngine pixel1 2 tt = (s', Some out) ∧
            shape (view out) = (1 * 2 ^ 2, 1 * 2 ^ 2, 4) ∧
            Z.of_nat (length (data out)) = 1 * 2 ^ 2 * (1 * 2 ^ 2) * 4.
Proof.
  destruct (multiUpscale_dimensions doublingEngine pixel1 1 1 2 tt)
    as (_ & Hdim & Htot).
  - split; reflexivity.
  - lia.
  - lia.
  - lia.
  - destruct Htot as (s' & out & Hrun); [intros s t; by eexists|].
    exists s', out. split; [exact Hrun|].
    destruct (Hdim s' out Hrun) as (Hshape & _ & Hlen). by split.
Defined.

Lemma read_outside d k : ¬ (0 ≤ k < Z.of_nat (length d)) → read d k = None.
Proof.
  intros Hk. unfold read. case_bool_decide; [|done].
  apply lookup_ge_None. lia.
Qed.

(** C4 (validation of the engine's result), as the code has it.  The core
    does not look at the shape of a returned buffer.  The conversion of an
    image is abandoned exactly when the inference call of some tile of
    some pass yields nothing, in which case nothing is stitched for that
    tile; when every call yields a tensor, of whatever dimensions, the
    conversion completes.  A tensor that a call returns for a tile is
    passed to the stitching step as it is, whatever its dimensions and
    its data: the tile's processing completes, and every cell of the
    tile's output region receives from the stitching step the element
    that the crop reaches in the returned data, or 0 when the crop
    reaches outside the returned data; for the colour channels that is
    the value left in the canvas when the tile is done. *)
Theorem conversion_aborts_iff_inference_fails (E : InferenceSession) img N s :
  ((multiUpscale E img N s).2 = None ↔ inferenceFailsInImage E img N s) ∧
  ((upscaleFrame E img s).2 = None ↔ inferenceFailsInPass E img s) ∧
  (engineTotal E → is_Some (multiUpscale E img N s).2) ∧
  (∀ W H i j d s0 s1 chunkData,
     rgba img W H → 1 ≤ W → 1 ≤ H → inGrid W H i j →
     length d = Z.to_nat (W * 2 * (H * 2) * 4) →
     runSuperRes E (subArr img (tileOf W H i j)) s0 = (s1, Some chunkData) →
     let tl := tileOf W H i j in
     let outArr := ndarray (W * 2, H * 2, 4) in
     let stitched := stitch d outArr chunkData tl in
     ∃ d', tileStep E img (i, j) d s0 = (s1, Some d') ∧
           d' = processAlphaChannel (data img) (alphaInput img tl) stitched (outSlice outArr tl) ∧
           ∀ px py c, 0 ≤ px < 2 * W → 0 ≤ py < 2 * H → 0 ≤ c < 4 →
             inOutputRegion W H i j px py →
             let k := index (chunkSlice chunkData tl) (px - t_x tl * 2) (py - t_y tl * 2) c in
             get stitched outArr px py c = Some (ToUint8 (read (tdata chunkData) k)) ∧
             (c < 3 → get d' outArr px py c = Some (ToUint8 (read (tdata chunkData) k))) ∧
             (¬ (0 ≤ k < Z.of_nat (length (tdata chunkData))) →
              get stitched outArr px py c = Some x00 ∧
              (c < 3 → get d' outArr px py c = Some x00))).
Proof.
  split; [apply multiUpscale_None_iff|]. split; [apply upscaleFrame_None_iff|].
  split; [intros Htot; rewrite multiUpscale_passes; by apply passes_total|].
  intros W H i j d s0 s1 cd Himg HW HH Hg Hlen Hcall. cbv zeta.
  destruct (rgba_shape img W H Himg) as [HsW HsH].
  eexists. split; [|split; [reflexivity|]].
  - apply tileStep_Some. exists cd. cbn [fst snd]. rewrite HsW, HsH. by split.
  - intros px py c Hpx Hpy Hc Hreg.
    destruct (stitch_spec W H i j d cd HW HH Hg Hlen) as [_ Hs].
    destruct (Hs px py c Hpx Hpy Hc) as [Hs1 _].
    destruct (tile_step_spec img W H i j d cd Himg HW HH Hg Hlen) as [_ Ht].
    destruct (Ht px py c Hpx Hpy Hc) as (_ & Hcol & _).
    split; [by apply Hs1|]. split; [intros Hc3; by apply Hcol|].
    intros Hout. split.
    + rewrite (Hs1 Hreg), (read_outside _ _ Hout). done.
    + intros Hc3. rewrite (Hcol Hreg Hc3), (read_outside _ _ Hout). done.
Qed.

Lemma conversion_aborts_iff_inference_fails_witness :
  is_Some (multiUpscale onePixelEngine pixel1 1 tt).2 ∧
  ∃ d', tileStep onePixelEngine pixel1 (0, 0) (new_Uint8Array 16) tt = (tt, Some d') ∧
        get d' (ndarray (1 * 2, 1 * 2, 4)) 0 0 0 = Some x09 ∧
        get d' (ndarray (1 * 2, 1 * 2, 4)) 1 1 0 = Some x00.
Proof.
  destruct (conversion_aborts_iff_inference_fails onePixelEngine pixel1 1 tt)
    as (_ & _ & Htot & Htile).
  split; [apply Htot; intros s t; by eexists|].
  destruct (Htile 1 1 0 0 (new_Uint8Array 16) tt tt (mkTensor [x09; x09; x09; xc8] (1, 1, 4)))
    as (d' & Hstep & _ & Hpix).
  - split; reflexivity.
  - lia.
  - lia.
  - split; split; by vm_compute.
  - reflexivity.
  - reflexivity.
  - exists d'. split; [exact Hstep|]. split.
    + destruct (Hpix 0 0 0) as (_ & Hcol & _); [lia| lia | lia | split; split; by vm_compute |].
      rewrite Hcol by lia. reflexivity.
    + destruct (Hpix 1 1 0) as (_ & _ & Hzero); [lia| lia | lia | split; split; by vm_compute |].
      destruct Hzero as [_ Hz]; [|apply Hz; lia].
      intros [_ Hlt]. vm_compute in Hlt. discriminate.
Defined.

(** C4 as stated fails: for the [(1,1,4)] chunk of a one-pixel image the
    engine returns a buffer of shape [(1,1,4)] instead of [(2,2,4)]; the
    pass is not abandoned, and the canvas holds the returned pixel
    followed by zeros read outside the returned buffer. *)
Lemma wrong_shape_not_rejected :
  dims (prepareImage (subArr pixel1 (tileOf 1 1 0 0))) = (1, 1, 4) ∧
  (∃ r, (session_run onePixelEngine tt (prepareImage (subArr pixel1 (tileOf 1 1 0 0)))).2 = Some r ∧
        dims r = (1, 1, 4) ∧ dims r ≠ (2 * 1, 2 * 1, 4)) ∧
  upscaleFrame onePixelEngine pixel1 tt =
    (tt, Some (NdArray.mk [x09; x09; x09; x04; x00; x00; x00; x04;
                           x00; x00; x00; x04; x00; x00; x00; x04] (ndarray (2, 2, 4)))).
Proof.
  split; [reflexivity|]. split; [|reflexivity].
  eexists. split; [reflexivity|]. split; [reflexivity|]. intros [=].
Qed.

(** C5.  In a batch run whose PNG files are [l1 ++ f :: l2], where the
    files of [l1] and of [l2] are processed successfully and an inference
    call fails during the conversion of [f]: the image-level operation on
    [f] returns [false] and leaves the file system as it was, and the run
    goes on and reports [N - 1] successes out of [N] files. *)
Theorem batch_isolates_inference_failure (E : InferenceSession) (P : Platform E)
    inputDir outputDir N (w : World E P) fs1 dirFiles w2 l1 f l2 :
  fs_mkdir P outputDir (files w) = Some fs1 →
  fs_readdir P fs1 inputDir = Some dirFiles →
  filter (fun file => String_toLowerCase P (path_extname P file) = ".png") dirFiles
    = l1 ++ f :: l2 →
  initializeONNX E P (mkWorld fs1 (superSession w)) = Some w2 →
  allSucceed E P inputDir outputDir N l1 w2 →
  failsByInference E P inputDir N f (bulkLoop E P inputDir outputDir N l1 w2).1 →
  allSucceed E P inputDir outputDir N l2
    (processFile E P inputDir outputDir N f (bulkLoop E P inputDir outputDir N l1 w2).1).1 →
  (processFile E P inputDir outputDir N f (bulkLoop E P inputDir outputDir N l1 w2).1).2 = false ∧
  files (processFile E P inputDir outputDir N f (bulkLoop E P inputDir outputDir N l1 w2).1).1
    = files (bulkLoop E P inputDir outputDir N l1 w2).1 ∧
  (processBulkImages E P inputDir outputDir N w).2
    = Some (Z.of_nat (length (l1 ++ f :: l2)) - 1, Z.of_nat (length (l1 ++ f :: l2))).
Proof.
  intros Hmk Hrd Hpng Hinit H1 Hf H2.
  destruct (processFile_inference_failure E P inputDir outputDir N f _ Hf) as [Hfalse Hfiles].
  split; [done|]. split; [done|].
  unfold processBulkImages. rewrite Hmk, Hrd, Hinit, Hpng.
  rewrite bulkLoop_app, bulkLoop_cons. cbn [fst snd].
  rewrite Hfalse, (allSucceed_count _ _ _ _ _ _ _ H1), (allSucceed_count _ _ _ _ _ _ _ H2).
  cbn [snd]. f_equal. f_equal. rewrite length_app. cbn [length]. lia.
Qed.

Lemma batch_isolates_inference_failure_witness :
  (processFile pickyEngine demoPlatform "in" "out" 1 "b.png"
     (bulkLoop pickyEngine demoPlatform "in" "out" 1 ["a.png"] demoWorld).1).2 = false ∧
  files (processFile pickyEngine demoPlatform "in" "out" 1 "b.png"
           (bulkLoop pickyEngine demoPlatform "in" "out" 1 ["a.png"] demoWorld).1).1
    = files (bulkLoop pickyEngine demoPlatform "in" "out" 1 ["a.png"] demoWorld).1 ∧
  (processBulkImages pickyEngine demoPlatform "in" "out" 1 demoWorld).2
    = Some (Z.of_nat (length (["a.png"] ++ "b.png" :: ["c.png"])) - 1,
            Z.of_nat (length (["a.png"] ++ "b.png" :: ["c.png"]))).
Proof.
  apply (batch_isolates_inference_failure pickyEngine demoPlatform "in" "out" 1 demoWorld
           demoFiles ["a.png"; "b.png"; "c.png"] demoWorld).
  - reflexivity.
  - reflexivity.
  - reflexivity.
  - reflexivity.
  - vm_compute. split; [reflexivity|exact I].
  - exists [x00; x00; x00; x00], [x00; x00; x00; x00], 1, 1, 4.
    split; [reflexivity|]. split; [reflexivity|].
    exists 0, tt, (NdArray.mk [x00; x00; x00; x00] (ndarray (1, 1, 4))).
    split; [lia|]. split; [reflexivity|].
    exists [], (0, 0), [], tt, (new_Uint8Array 16).
    split; [reflexivity|]. split; reflexivity.
  - vm_compute. split; [reflexivity|exact I].
Defined.

(** C6 (RGB placement fidelity), evaluated on the 1025 x 1 image whose
    channels are all 255, with the identity-doubling engine.  The pass
    returns a canvas; its pixel [(2048, 0)] is 0 in every channel, while
    the source pixel [(1024, 0)] is 255: the strip that no tile covers is
    never written.  (On the pixels that the tiles cover the colours do
    replicate the source, see [pass_rgb_doubling].) *)
Theorem rgb_lost_in_uncovered_strip :
  rgba whiteStrip 1025 1 ∧ engineDoubles doublingEngine ∧
  ∃ out, upscaleFrame doublingEngine whiteStrip tt = (tt, Some out) ∧
         ∀ c, 0 ≤ c < 4 →
              get (data whiteStrip) (view whiteStrip) (2048 / 2) (0 / 2) c = Some xff ∧
              get (data out) (view out) 2048 0 c = Some x00.
Proof.
  assert (Himg : rgba whiteStrip 1025 1) by (split; reflexivity).
  split; [done|]. split; [by intros s t|].
  destruct (upscaleFrame_total doublingEngine whiteStrip tt) as [out Hout];
    [intros s t; by eexists|].
  destruct (upscaleFrame doublingEngine whiteStrip tt) as [[] o] eqn:Hrun.
  cbn in Hout. subst o. exists out. split; [done|].
  intros c Hc. split.
  - assert (c = 0 ∨ c = 1 ∨ c = 2 ∨ c = 3) as [->|[->|[->| ->]]] by lia; reflexivity.
  - apply (pass_spec doublingEngine whiteStrip 1025 1 (fun _ _ _ _ => True))
      in Hrun as (_ & _ & Hpix); [|done|lia|lia|done].
    destruct (Hpix 2048 0 c) as [_ Hzero]; [lia..|].
    apply Hzero. apply strip_1025_uncovered.
Qed.

(** C7 (the stitching step writes only R, G, B), evaluated on a one-pixel
    image with alpha 4 and an engine result whose four pixels are
    [(1,2,3,200)].  After the stitching step the alpha cells of the canvas
    hold 200, the alpha of the inference result: the copy takes all four
    channels.  [processAlphaChannel] then stores the source alpha 4 over
    them.  (For every tile the copy takes the four channels of the crop,
    see [stitch_spec]; after both steps the canvas has the crop's colours
    and the source's alpha, see [tile_step_spec].) *)
Theorem stitch_copies_alpha :
  let chunkData := mkTensor [x01; x02; x03; xc8; x01; x02; x03; xc8;
                             x01; x02; x03; xc8; x01; x02; x03; xc8] (2, 2, 4) in
  let outArr := ndarray (2, 2, 4) in
  let tl := tileOf 1 1 0 0 in
  (runSuperRes constEngine (subArr pixel1 tl) tt).2 = Some chunkData ∧
  stitch (new_Uint8Array 16) outArr chunkData tl =
    [x01; x02; x03; xc8; x01; x02; x03; xc8; x01; x02; x03; xc8; x01; x02; x03; xc8] ∧
  get (stitch (new_Uint8Array 16) outArr chunkData tl) outArr 0 0 3
    = get (tdata chunkData) (chunkSlice chunkData tl) 0 0 3 ∧
  processAlphaChannel (data pixel1) (alphaInput pixel1 tl)
    (stitch (new_Uint8Array 16) outArr chunkData tl) (outSlice outArr tl) =
    [x01; x02; x03; x04; x01; x02; x03; x04; x01; x02; x03; x04; x01; x02; x03; x04].
Proof. repeat split. Qed.

(** C8.  For every tile of the pass over a W x H image, W,H >= 1, the
    width and the height of the [outputRegion] are
    [2 * (min(dim, pos + chunk) - pos)] in their axis, even and strictly
    positive. *)
Theorem outputRegion_even_positive W H i j :
  1 ≤ W → 1 ≤ H → inGrid W H i j →
  let tl := tileOf W H i j in
  t_outW tl = 2 * (Z.min W (t_x tl + W / nChunks W) - t_x tl) ∧
  t_outH tl = 2 * (Z.min H (t_y tl + H / nChunks H) - t_y tl) ∧
  Z.even (t_outW tl) = true ∧ Z.even (t_outH tl) = true ∧
  0 < t_outW tl ∧ 0 < t_outH tl.
Proof.
  intros HW HH Hg tl.
  pose proof (tile_facts W H i j HW HH Hg) as F. fold tl in F.
  split; [reflexivity|]. split; [reflexivity|].
  rewrite (tf_outW _ _ _ F), (tf_outH _ _ _ F).
  pose proof (tf_cW _ _ _ F). pose proof (tf_cH _ _ _ F).
  rewrite !Z.even_mul. repeat split; lia.
Qed.

Lemma outputRegion_even_positive_witness :
  let tl := tileOf 2000 1500 1 1 in
  t_outW tl = 2 * (Z.min 2000 (t_x tl + 2000 / nChunks 2000) - t_x tl) ∧
  t_outH tl = 2 * (Z.min 1500 (t_y tl + 1500 / nChunks 1500) - t_y tl) ∧
  Z.even (t_outW tl) = true ∧ Z.even (t_outH tl) = true ∧
  0 < t_outW tl ∧ 0 < t_outH tl.
Proof.
  apply (outputRegion_even_positive 2000 1500 1 1).
  - lia.
  - lia.
  - split; split; by vm_compute.
Defined.

(** C9.  Extracting the region of a tile from a source buffer any number
    of times, one extraction after the other on the same store, leaves
    the source buffer as it was and yields, at addresses other than the
    source's, contiguous buffers that all hold the same bytes: the bytes
    that [upscaleFrame] hands to the engine for that tile. *)
Theorem extraction_pure n (h : Store.store) src sdata iv tl :
  h !! src = Some sdata →
  ∃ h' rs,
    Store.extractMany n h src iv tl = (h', rs) ∧ length rs = n ∧
    h' !! src = Some sdata ∧
    Forall (fun r => r.1 ≠ src ∧
                     h' !! r.1 = Some (data (subArr (NdArray.mk sdata iv) tl)) ∧
                     r.2 = ndarray (shape (inSlice (NdArray.mk sdata iv) tl))) rs ∧
    length (data (subArr (NdArray.mk sdata iv) tl)) = Z.to_nat (t_inW tl * t_inH tl * 4).
Proof.
  intros Hs.
  destruct (StoreFacts.extractMany_spec n h src sdata iv tl Hs)
    as (h' & rs & Hrun & Hsub & Hlen & Hall).
  exists h', rs. split; [done|]. split; [done|].
  split; [by eapply lookup_weaken|]. split.
  - eapply Forall_impl; [exact Hall|]. intros [l v] (Hl & Hv & Hnone). cbn [fst snd] in *.
    split; [congruence|]. split; done.
  - unfold subArr. cbn [data].
    etrans; [apply (writes_assign _ _ _ _)|]. apply length_new_Uint8Array.
Qed.

Lemma extraction_pure_witness :
  ∃ h' rs,
    Store.extractMany 2 {[1%positive := [x01; x02; x03; x04]]} 1%positive
      (ndarray (1, 1, 4)) (tileOf 1 1 0 0) = (h', rs) ∧ length rs = 2%nat ∧
    h' !! 1%positive = Some [x01; x02; x03; x04] ∧
    Forall (fun r => r.1 ≠ 1%positive ∧
                     h' !! r.1 = Some (data (subArr pixel1 (tileOf 1 1 0 0))) ∧
                     r.2 = ndarray (shape (inSlice pixel1 (tileOf 1 1 0 0)))) rs ∧
    length (data (subArr pixel1 (tileOf 1 1 0 0)))
      = Z.to_nat (t_inW (tileOf 1 1 0 0) * t_inH (tileOf 1 1 0 0) * 4).
Proof.
  apply (extraction_pure 2 {[1%positive := [x01; x02; x03; x04]]} 1%positive
           [x01; x02; x03; x04] (ndarray (1, 1, 4)) (tileOf 1 1 0 0)).
  reflexivity.
Defined.

(** C10.  For every tile of the pass over a W x H RGBA image, W,H >= 1,
    all accesses stay in bounds: the padded input region lies in the image
    and the source slice in the source buffer; the crop lies in an
    inference result of shape [(2*inW, 2*inH, 4)]; and the indices of the
    alpha loop lie in the shapes [(outW/2, outH/2, 4)] and
    [(outW, outH, 4)] of its two slices, which lie in the source buffer
    and in the canvas. *)
Theorem accesses_in_bounds img W H i j chunkData :
  rgba img W H → 1 ≤ W → 1 ≤ H → inGrid W H i j →
  let tl := tileOf W H i j in
  let outArr := ndarray (W * 2, H * 2, 4) in
  dims chunkData = (2 * t_inW tl, 2 * t_inH tl, 4) →
  length (tdata chunkData) = Z.to_nat (2 * t_inW tl * (2 * t_inH tl) * 4) →
  (0 ≤ t_xStart tl ∧ t_xStart tl + t_inW tl ≤ W ∧
   0 ≤ t_yStart tl ∧ t_yStart tl + t_inH tl ≤ H) ∧
  (shape (inSlice img tl) = (t_inW tl, t_inH tl, 4) ∧
   ∀ a b c, 0 ≤ a < t_inW tl → 0 ≤ b < t_inH tl → 0 ≤ c < 4 →
            0 ≤ index (inSlice img tl) a b c < Z.of_nat (length (data img))) ∧
  (2 * (t_x tl - t_xStart tl) + t_outW tl ≤ 2 * t_inW tl ∧
   2 * (t_y tl - t_yStart tl) + t_outH tl ≤ 2 * t_inH tl ∧
   ∀ u v c, 0 ≤ u < t_outW tl → 0 ≤ v < t_outH tl → 0 ≤ c < 4 →
            0 ≤ index (chunkSlice chunkData tl) u v c < Z.of_nat (length (tdata chunkData))) ∧
  (shape (alphaInput img tl) = (t_outW tl / 2, t_outH tl / 2, 4) ∧
   shape (outSlice outArr tl) = (t_outW tl, t_outH tl, 4) ∧
   ∀ x y, 0 ≤ x < t_outW tl → 0 ≤ y < t_outH tl →
          0 ≤ x / 2 < t_outW tl / 2 ∧ 0 ≤ y / 2 < t_outH tl / 2 ∧
          0 ≤ index (alphaInput img tl) (x / 2) (y / 2) 3 < Z.of_nat (length (data img)) ∧
          0 ≤ index (outSlice outArr tl) x y 3 < W * 2 * (H * 2) * 4).
Proof.
  intros Himg HW HH Hg.
  pose proof (tile_facts W H i j HW HH Hg) as F.
  pose proof (inSlice_shape W H i j HW HH Hg img) as Hish.
  pose proof (inSlice_index W H i j HW HH Hg img) as Hiidx.
  pose proof (outSlice_shape W H i j HW HH Hg) as Hosh.
  pose proof (outSlice_index W H i j HW HH Hg) as Hoidx.
  pose proof (alphaInput_index W H i j HW HH Hg img) as Haidx.
  cbv zeta. set (tl := tileOf W H i j) in *.
  intros Hdims Hclen.
  destruct Himg as [Hview Hlen].
  pose proof (tf_xStart _ _ _ F). pose proof (tf_yStart _ _ _ F).
  pose proof (tf_inW _ _ _ F). pose proof (tf_inH _ _ _ F).
  pose proof (tf_cropW _ _ _ F). pose proof (tf_cropH _ _ _ F).
  pose proof (tf_outW _ _ _ F) as HoW. pose proof (tf_outH _ _ _ F) as HoH.
  pose proof (tf_cW _ _ _ F). pose proof (tf_cH _ _ _ F).
  pose proof (tf_x _ _ _ F). pose proof (tf_y _ _ _ F).
  assert (HhW : t_outW tl / 2 = W / nChunks W)
    by (rewrite HoW, Z.mul_comm; apply Z.div_mul; lia).
  assert (HhH : t_outH tl / 2 = H / nChunks H)
    by (rewrite HoH, Z.mul_comm; apply Z.div_mul; lia).
  split; [lia|]. split; [|split].
  - split; [done|]. intros a b c Ha Hb Hc.
    rewrite Hiidx, Hlen by done.
    pose proof (flat_range W H 4 (t_xStart tl + a) (t_yStart tl + b) c). lia.
  - split; [lia|]. split; [lia|]. intros u v c Hu Hv Hc.
    unfold chunkSlice. rewrite Hdims, index_hi, index_lo, index_ndarray, Hclen by lia.
    pose proof (flat_range (2 * t_inW tl) (2 * t_inH tl) 4
                  ((t_x tl - t_xStart tl) * 2 + u) ((t_y tl - t_yStart tl) * 2 + v) (0 + c)).
    lia.
  - split; [|split; [done|]].
    + unfold alphaInput. apply shape_hi; lia.
    + intros x y Hx Hy.
      assert (0 ≤ x / 2 < W / nChunks W)
        by half_bounds.
      assert (0 ≤ y / 2 < H / nChunks H)
        by half_bounds.
      split; [lia|]. split; [lia|]. split.
      * rewrite Haidx, Hlen by done.
        pose proof (flat_range W H 4 (t_x tl + x / 2) (t_y tl + y / 2) 3). lia.
      * rewrite Hoidx.
        pose proof (flat_range (W * 2) (H * 2) 4 (t_x tl * 2 + x) (t_y tl * 2 + y) 3). lia.
Qed.

Lemma accesses_in_bounds_witness :
  let tl := tileOf 1 1 0 0 in
  let outArr := ndarray (1 * 2, 1 * 2, 4) in
  let chunkData := doubleTensor (prepareImage (subArr pixel1 tl)) in
  (0 ≤ t_xStart tl ∧ t_xStart tl + t_inW tl ≤ 1 ∧
   0 ≤ t_yStart tl ∧ t_yStart tl + t_inH tl ≤ 1) ∧
  (shape (inSlice pixel1 tl) = (t_inW tl, t_inH tl, 4) ∧
   ∀ a b c, 0 ≤ a < t_inW tl → 0 ≤ b < t_inH tl → 0 ≤ c < 4 →
            0 ≤ index (inSlice pixel1 tl) a b c < Z.of_nat (length (data pixel1))) ∧
  (2 * (t_x tl - t_xStart tl) + t_outW tl ≤ 2 * t_inW tl ∧
   2 * (t_y tl - t_yStart tl) + t_outH tl ≤ 2 * t_inH tl ∧
   ∀ u v c, 0 ≤ u < t_outW tl → 0 ≤ v < t_outH tl → 0 ≤ c < 4 →
            0 ≤ index (chunkSlice chunkData tl) u v c < Z.of_nat (length (tdata chunkData))) ∧
  (shape (alphaInput pixel1 tl) = (t_outW tl / 2, t_outH tl / 2, 4) ∧
   shape (outSlice outArr tl) = (t_outW tl, t_outH tl, 4) ∧
   ∀ x y, 0 ≤ x < t_outW tl → 0 ≤ y < t_outH tl →
          0 ≤ x / 2 < t_outW tl / 2 ∧ 0 ≤ y / 2 < t_outH tl / 2 ∧
          0 ≤ index (alphaInput pixel1 tl) (x / 2) (y / 2) 3 < Z.of_nat (length (data pixel1)) ∧
          0 ≤ index (outSlice outArr tl) x y 3 < 1 * 2 * (1 * 2) * 4).
Proof.
  apply (accesses_in_bounds pixel1 1 1 0 0
           (doubleTensor (prepareImage (subArr pixel1 (tileOf 1 1 0 0))))).
  - split; reflexivity.
  - lia.
  - lia.
  - split; split; by vm_compute.
  - reflexivity.
  - reflexivity.
Defined.

(** * Further properties of the code *)

(** ** The tile grid *)

Lemma nChunks_small W : 1 ≤ W ≤ CHUNK_SIZE → nChunks W = 1.
Proof.
  unfold nChunks, Math_ceil_div, CHUNK_SIZE. intros HW.
  destruct (decide (W = 1024)) as [->|Hne]; [reflexivity|].
  rewrite Z.mod_small, Z.div_small by lia.
  destruct (Z.eqb_spec W 0); lia.
Qed.

(** X1.  The output regions of the tiles of a pass lie inside the canvas
    [[0,2W) x [0,2H)], and two tiles that share an output pixel are the
    same tile. *)
Theorem tiles_inside_canvas_and_disjoint W H i j i' j' px py :
  1 ≤ W → 1 ≤ H → inGrid W H i j → inGrid W H i' j' →
  inOutputRegion W H i j px py →
  (0 ≤ px < 2 * W ∧ 0 ≤ py < 2 * H) ∧
  (inOutputRegion W H i' j' px py → i = i' ∧ j = j').
Proof.
  intros HW HH Hg Hg' Hreg. split.
  - pose proof (tile_facts W H i j HW HH Hg) as F.
    destruct Hreg as [Hx Hy].
    rewrite (tf_outW _ _ _ F) in Hx. rewrite (tf_outH _ _ _ F) in Hy.
    pose proof (tf_x _ _ _ F). pose proof (tf_y _ _ _ F).
    pose proof (tf_xStart _ _ _ F). pose proof (tf_yStart _ _ _ F). lia.
  - intros Hreg'.
    exact (outputRegions_disjoint W H i j i' j' px py HW HH Hg Hg' Hreg Hreg').
Qed.

Lemma tiles_inside_canvas_and_disjoint_witness :
  (0 ≤ 2000 < 2 * 2000 ∧ 0 ≤ 1500 < 2 * 1500) ∧
  (inOutputRegion 2000 1500 1 1 2000 1500 → 1 = 1 ∧ 1 = 1).
Proof.
  apply (tiles_inside_canvas_and_disjoint 2000 1500 1 1 1 1 2000 1500).
  - lia.
  - lia.
  - split; split; by vm_compute.
  - split; split; by vm_compute.
  - split; split; by vm_compute.
Defined.

(** X2.  An output pixel lies in the region of some tile exactly when its
    column is below [2 * (W - W mod nChunksW)] and its row below
    [2 * (H - H mod nChunksH)]: per axis the last [dim mod nChunks] source
    lines, fewer than [nChunks], reach no tile. *)
Theorem covered_up_to_remainder W H px py :
  1 ≤ W → 1 ≤ H →
  (covered W H px py ↔
   0 ≤ px < 2 * (W - W mod nChunks W) ∧ 0 ≤ py < 2 * (H - H mod nChunks H)) ∧
  0 ≤ W mod nChunks W < nChunks W ∧ 0 ≤ H mod nChunks H < nChunks H.
Proof.
  intros HW HH.
  pose proof (nChunks_bounds W HW). pose proof (nChunks_bounds H HH).
  pose proof (Z.div_mod W (nChunks W) ltac:(lia)).
  pose proof (Z.div_mod H (nChunks H) ltac:(lia)).
  split; [|split; apply Z.mod_pos_bound; lia].
  rewrite covered_iff by done.
  replace (W - W mod nChunks W) with (nChunks W * (W / nChunks W)) by lia.
  replace (H - H mod nChunks H) with (nChunks H * (H / nChunks H)) by lia.
  done.
Qed.

Lemma covered_up_to_remainder_witness :
  (covered 1025 1 2047 1 ↔
   0 ≤ 2047 < 2 * (1025 - 1025 mod nChunks 1025) ∧ 0 ≤ 1 < 2 * (1 - 1 mod nChunks 1)) ∧
  0 ≤ 1025 mod nChunks 1025 < nChunks 1025 ∧ 0 ≤ 1 mod nChunks 1 < nChunks 1.
Proof.
  apply (covered_up_to_remainder 1025 1 2047 1); lia.
Defined.

(** X3.  An image of at most 1024 x 1024 pixels is processed as a single
    tile without padding: the whole image is the chunk, and its output
    region is the whole canvas. *)
Theorem small_image_single_tile W H :
  1 ≤ W ≤ CHUNK_SIZE → 1 ≤ H ≤ CHUNK_SIZE →
  grid W H = [(0, 0)] ∧
  tileOf W H 0 0 = mkTile 0 0 0 H (2 * H) 0 W (2 * W) ∧
  ∀ px py, 0 ≤ px < 2 * W → 0 ≤ py < 2 * H → inOutputRegion W H 0 0 px py.
Proof.
  intros HW HH.
  pose proof (nChunks_small W HW) as HnW. pose proof (nChunks_small H HH) as HnH.
  assert (Htile : tileOf W H 0 0 = mkTile 0 0 0 H (2 * H) 0 W (2 * W)).
  { unfold tileOf, tile. rewrite HnW, HnH, !Z.div_1_r. unfold PAD_SIZE.
    rewrite !Z.mul_0_l. change (Z.max 0 (0 - 32)) with 0. rewrite !Z.add_0_l.
    destruct (Z.gtb_spec (H + 32 * 2) H); [|lia].
    destruct (Z.gtb_spec (W + 32 * 2) W); [|lia].
    f_equal; lia. }
  split; [|split; [done|]].
  - unfold grid. rewrite HnW, HnH. reflexivity.
  - intros px py Hx Hy. unfold inOutputRegion. rewrite Htile.
    cbn [t_x t_y t_outW t_outH]. lia.
Qed.

Lemma small_image_single_tile_witness :
  grid 1024 600 = [(0, 0)] ∧
  tileOf 1024 600 0 0 = mkTile 0 0 0 600 (2 * 600) 0 1024 (2 * 1024) ∧
  ∀ px py, 0 ≤ px < 2 * 1024 → 0 ≤ py < 2 * 600 → inOutputRegion 1024 600 0 0 px py.
Proof.
  apply (small_image_single_tile 1024 600); by vm_compute.
Defined.

(** X4.  The padding of a tile.  On the low side a tile gets
    [min(pos, 32)] lines of context.  On the high side it gets what is
    left of 64 lines after the low padding, or the lines that remain up to
    the border if those are fewer: a tile at the low border has up to 64
    lines of context on its high side. *)
Theorem tile_padding W H i j :
  1 ≤ W → 1 ≤ H → inGrid W H i j →
  let tl := tileOf W H i j in
  let padL := t_x tl - t_xStart tl in
  let padT := t_y tl - t_yStart tl in
  padL = Z.min (t_x tl) PAD_SIZE ∧
  padT = Z.min (t_y tl) PAD_SIZE ∧
  t_inW tl - padL - W / nChunks W
    = Z.min (W - (t_x tl + W / nChunks W)) (2 * PAD_SIZE - padL) ∧
  t_inH tl - padT - H / nChunks H
    = Z.min (H - (t_y tl + H / nChunks H)) (2 * PAD_SIZE - padT).
Proof.
  intros HW HH [Hi Hj].
  destruct (chunk_bounds W HW) as [[HcW _] _].
  destruct (chunk_bounds H HH) as [[HcH _] _].
  cbv zeta. unfold tileOf, tile, PAD_SIZE.
  cbn [t_x t_y t_xStart t_yStart t_inW t_inH].
  set (x := j * (W / nChunks W)). set (y := i * (H / nChunks H)).
  assert (0 ≤ x) by (subst x; nia). assert (0 ≤ y) by (subst y; nia).
  destruct (Z.gtb_spec (Z.max 0 (x - 32) + W / nChunks W + 32 * 2) W);
    destruct (Z.gtb_spec (Z.max 0 (y - 32) + H / nChunks H + 32 * 2) H); lia.
Qed.

Lemma tile_padding_witness :
  let tl := tileOf 2000 1500 0 0 in
  let padL := t_x tl - t_xStart tl in
  let padT := t_y tl - t_yStart tl in
  padL = Z.min (t_x tl) PAD_SIZE ∧
  padT = Z.min (t_y tl) PAD_SIZE ∧
  t_inW tl - padL - 2000 / nChunks 2000
    = Z.min (2000 - (t_x tl + 2000 / nChunks 2000)) (2 * PAD_SIZE - padL) ∧
  t_inH tl - padT - 1500 / nChunks 1500
    = Z.min (1500 - (t_y tl + 1500 / nChunks 1500)) (2 * PAD_SIZE - padT).
Proof.
  apply (tile_padding 2000 1500 0 0).
  - lia.
  - lia.
  - split; split; by vm_compute.
Defined.

(** ** What a pass writes *)

Lemma small_image_covered W H px py :
  1 ≤ W ≤ CHUNK_SIZE → 1 ≤ H ≤ CHUNK_SIZE →
  0 ≤ px < 2 * W → 0 ≤ py < 2 * H → covered W H px py.
Proof.
  intros HW HH Hx Hy. apply covered_iff; [lia..|].
  rewrite (nChunks_small W HW), (nChunks_small H HH), !Z.div_1_r. lia.
Qed.

Lemma pass_alpha_covered (E : InferenceSession) img W H s s' out :
  rgba img W H → 1 ≤ W → 1 ≤ H →
  upscaleFrame E img s = (s', Some out) →
  ∀ px py, 0 ≤ px < 2 * W → 0 ≤ py < 2 * H → covered W H px py →
    get (data out) (view out) px py 3 = get (data img) (view img) (px / 2) (py / 2) 3.
Proof.
  intros Himg HW HH Hrun px py Hpx Hpy Hcov.
  destruct (rgba_shape img W H Himg) as [HsW HsH].
  eapply (pass_spec E img W H
            (fun px py c v => c = 3 → v = get (data img) (view img) (px / 2) (py / 2) 3))
    in Hrun as (_ & _ & Hpix); [|done..|].
  - destruct (Hpix px py 3) as [Hq _]; [lia..|]. by apply Hq.
  - intros i j d s0 s0' d' Hg Hlen Hstep qx qy c Hqx Hqy Hc Hreg ->.
    apply tileStep_Some in Hstep as (cd & _ & ->). cbn [fst snd].
    rewrite HsW, HsH.
    destruct (tile_step_spec img W H i j d cd Himg HW HH Hg Hlen) as [_ Hspec].
    destruct (Hspec qx qy 3 Hqx Hqy Hc) as (Ha & _ & _). by apply Ha.
Qed.

Lemma pass_doubling_covered (E : InferenceSession) img W H s s' out :
  engineDoubles E → rgba img W H → 1 ≤ W → 1 ≤ H →
  upscaleFrame E img s = (s', Some out) →
  ∀ px py c, 0 ≤ px < 2 * W → 0 ≤ py < 2 * H → 0 ≤ c < 4 → covered W H px py →
    get (data out) (view out) px py c = get (data img) (view img) (px / 2) (py / 2) c.
Proof.
  intros Hdbl Himg HW HH Hrun px py c Hpx Hpy Hc Hcov.
  destruct (decide (c = 3)) as [->|Hc3].
  - by eapply pass_alpha_covered.
  - eapply pass_rgb_doubling; eauto. lia.
Qed.

(** X5.  Whatever the engine returns, a pass leaves at 0, in all four
    channels, every pixel of the canvas that lies in no tile's output
    region: nothing is written outside the regions of the tiles. *)
Theorem uncovered_pixels_stay_zero (E : InferenceSession) img W H s s' out :
  rgba img W H → 1 ≤ W → 1 ≤ H →
  upscaleFrame E img s = (s', Some out) →
  ∀ px py c, 0 ≤ px < 2 * W → 0 ≤ py < 2 * H → 0 ≤ c < 4 →
    ¬ covered W H px py →
    get (data out) (view out) px py c = Some x00.
Proof.
  intros Himg HW HH Hrun px py c Hpx Hpy Hc Hno.
  apply (pass_spec E img W H (fun _ _ _ _ => True)) in Hrun as (_ & _ & Hpix);
    [|done..].
  destruct (Hpix px py c Hpx Hpy Hc) as [_ Hzero]. by apply Hzero.
Qed.

Lemma uncovered_pixels_stay_zero_witness :
  ∃ out, (upscaleFrame onePixelEngine whiteStrip tt).2 = Some out ∧
         get (data out) (view out) 2049 1 3 = Some x00.
Proof.
  destruct (upscaleFrame onePixelEngine whiteStrip tt) as [s' [out|]] eqn:Hrun.
  - exists out. split; [reflexivity|].
    apply (uncovered_pixels_stay_zero onePixelEngine whiteStrip 1025 1 tt s' out).
    + split; reflexivity.
    + lia.
    + lia.
    + exact Hrun.
    + lia.
    + lia.
    + lia.
    + intros Hc. apply covered_iff in Hc as [Hx _]; [|lia..].
      change (nChunks 1025 * (1025 / nChunks 1025)) with 1024 in Hx. lia.
  - exfalso.
    destruct (upscaleFrame_total onePixelEngine whiteStrip tt) as [o Ho];
      [intros s t; by eexists|].
    rewrite Hrun in Ho. discriminate.
Defined.

(** X6.  With an engine that doubles every chunk, a pass replicates the
    source into every pixel that a tile covers, in all four channels: the
    pixel [(x,y)] of the canvas is the source pixel [(x/2, y/2)].  Padding
    and cropping cancel out, at the first tile, inside, and at the last
    tile. *)
Theorem doubling_pass_replicates (E : InferenceSession) img W H s s' out :
  engineDoubles E → rgba img W H → 1 ≤ W → 1 ≤ H →
  upscaleFrame E img s = (s', Some out) →
  ∀ px py c, 0 ≤ px < 2 * W → 0 ≤ py < 2 * H → 0 ≤ c < 4 → covered W H px py →
    get (data out) (view out) px py c = get (data img) (view img) (px / 2) (py / 2) c.
Proof. apply pass_doubling_covered. Qed.

Lemma doubling_pass_replicates_witness :
  ∃ out, (upscaleFrame doublingEngine rgbaPair tt).2 = Some out ∧
         get (data out) (view out) 3 1 2 = get (data rgbaPair) (view rgbaPair) (3 / 2) (1 / 2) 2.
Proof.
  destruct (upscaleFrame doublingEngine rgbaPair tt) as [s' [out|]] eqn:Hrun.
  - exists out. split; [reflexivity|].
    apply (doubling_pass_replicates doublingEngine rgbaPair 2 1 tt s' out).
    + by intros s t.
    + split; reflexivity.
    + lia.
    + lia.
    + exact Hrun.
    + lia.
    + lia.
    + lia.
    + apply small_image_covered; by vm_compute.
  - vm_compute in Hrun. discriminate.
Defined.

(** ** Several passes *)

Lemma passes_nearest_gen (E : InferenceSession) (C : Z → Prop) :
  (∀ img W H s s1 a,
      rgba img W H → 1 ≤ W ≤ CHUNK_SIZE → 1 ≤ H ≤ CHUNK_SIZE →
      upscaleFrame E img s = (s1, Some a) →
      ∀ px py c, 0 ≤ px < 2 * W → 0 ≤ py < 2 * H → 0 ≤ c < 4 → C c →
        get (data a) (view a) px py c = get (data img) (view img) (px / 2) (py / 2) c) →
  ∀ l img W H s s' out,
    rgba img W H → 1 ≤ W → 1 ≤ H →
    W * 2 ^ Z.of_nat (length l) ≤ 2 * CHUNK_SIZE →
    H * 2 ^ Z.of_nat (length l) ≤ 2 * CHUNK_SIZE →
    passes E l img s = (s', Some out) →
    ∀ x y c, 0 ≤ x < W * 2 ^ Z.of_nat (length l) →
             0 ≤ y < H * 2 ^ Z.of_nat (length l) → 0 ≤ c < 4 → C c →
      get (data out) (view out) x y c =
      get (data img) (view img) (x / 2 ^ Z.of_nat (length l)) (y / 2 ^ Z.of_nat (length l)) c.
Proof.
  intros Hone.
  induction l as [|i l IH]; intros img W H s s' out Himg HW HH HbW HbH Hrun x y c Hx Hy Hc HC.
  - cbn in Hrun. unfold ret in Hrun. simplify_eq.
    cbn [length Z.of_nat]. by rewrite Z.pow_0_r, !Z.div_1_r.
  - unfold passes in Hrun. cbn [foldM] in Hrun. unfold bind in Hrun.
    destruct (upscaleFrame E img s) as [s1 [a|]] eqn:Hpass; [|done].
    fold (passes E l a s1) in Hrun.
    pose proof (upscaleFrame_rgba E img W H s s1 a Himg Hpass) as Ha.
    cbn [length] in *. rewrite Nat2Z.inj_succ, Z.pow_succ_r in * by lia.
    set (p := 2 ^ Z.of_nat (length l)) in *.
    assert (Hp : 0 < p) by (apply Z.pow_pos_nonneg; lia).
    rewrite (IH a (W * 2) (H * 2) s1 s' out Ha) by (done || nia).
    assert (0 ≤ x / p < 2 * W)
      by (split; [apply Z.div_pos; lia|apply Z.div_lt_upper_bound; nia]).
    assert (0 ≤ y / p < 2 * H)
      by (split; [apply Z.div_pos; lia|apply Z.div_lt_upper_bound; nia]).
    rewrite (Hone img W H s s1 a Himg) by (done || unfold CHUNK_SIZE in *; nia).
    rewrite !Z.div_div by lia. by rewrite (Z.mul_comm p 2).
Qed.

Lemma passes_nearest (E : InferenceSession) l img W H s s' out :
  engineDoubles E → rgba img W H → 1 ≤ W → 1 ≤ H →
  W * 2 ^ Z.of_nat (length l) ≤ 2 * CHUNK_SIZE →
  H * 2 ^ Z.of_nat (length l) ≤ 2 * CHUNK_SIZE →
  passes E l img s = (s', Some out) →
  ∀ x y c, 0 ≤ x < W * 2 ^ Z.of_nat (length l) →
           0 ≤ y < H * 2 ^ Z.of_nat (length l) → 0 ≤ c < 4 →
    get (data out) (view out) x y c =
    get (data img) (view img) (x / 2 ^ Z.of_nat (length l)) (y / 2 ^ Z.of_nat (length l)) c.
Proof.
  intros Hdbl Himg HW HH HbW HbH Hrun x y c Hx Hy Hc.
  eapply (passes_nearest_gen E (fun _ => True)); eauto.
  intros img0 W0 H0 s0 s1 a Himg0 HW0 HH0 Hpass px py c0 Hpx Hpy Hc0 _.
  eapply pass_doubling_covered; eauto; try lia.
  by apply small_image_covered.
Qed.

Lemma passes_alpha_nearest (E : InferenceSession) l img W H s s' out :
  rgba img W H → 1 ≤ W → 1 ≤ H →
  W * 2 ^ Z.of_nat (length l) ≤ 2 * CHUNK_SIZE →
  H * 2 ^ Z.of_nat (length l) ≤ 2 * CHUNK_SIZE →
  passes E l img s = (s', Some out) →
  ∀ x y, 0 ≤ x < W * 2 ^ Z.of_nat (length l) →
         0 ≤ y < H * 2 ^ Z.of_nat (length l) →
    get (data out) (view out) x y 3 =
    get (data img) (view img) (x / 2 ^ Z.of_nat (length l)) (y / 2 ^ Z.of_nat (length l)) 3.
Proof.
  intros Himg HW HH HbW HbH Hrun x y Hx Hy.
  eapply (passes_nearest_gen E (fun c => c = 3)); eauto; [|lia].
  intros img0 W0 H0 s0 s1 a Himg0 HW0 HH0 Hpass px py c0 Hpx Hpy Hc0 ->.
  eapply pass_alpha_covered; eauto; try lia.
  by apply small_image_covered.
Qed.

(** X7.  With an engine that doubles every chunk, [multiUpscale] with
    factor [N] is nearest-neighbour enlargement by [2^N] in all four
    channels, for an image whose enlarged width and height do not exceed
    2048 (every pass then works on a single tile): the result's pixel
    [(x,y)] is the source pixel [(x / 2^N, y / 2^N)]. *)
Theorem doubling_multiUpscale_nearest (E : InferenceSession) img W H N s s' out :
  engineDoubles E → rgba img W H → 1 ≤ W → 1 ≤ H → 0 ≤ N →
  W * 2 ^ N ≤ 2 * CHUNK_SIZE → H * 2 ^ N ≤ 2 * CHUNK_SIZE →
  multiUpscale E img N s = (s', Some out) →
  ∀ x y c, 0 ≤ x < W * 2 ^ N → 0 ≤ y < H * 2 ^ N → 0 ≤ c < 4 →
    get (data out) (view out) x y c = get (data img) (view img) (x / 2 ^ N) (y / 2 ^ N) c.
Proof.
  intros Hdbl Himg HW HH HN HbW HbH Hrun x y c Hx Hy Hc.
  rewrite multiUpscale_passes in Hrun.
  pose proof (passes_nearest E (seqZ 0 N) img W H s s' out Hdbl Himg HW HH) as Hn.
  rewrite length_seqZ, Z2Nat.id in Hn by lia. by apply Hn.
Qed.

Lemma doubling_multiUpscale_nearest_witness :
  ∃ out, (multiUpscale doublingEngine rgbaPair 3 tt).2 = Some out ∧
         get (data out) (view out) 9 5 1 =
         get (data rgbaPair) (view rgbaPair) (9 / 2 ^ 3) (5 / 2 ^ 3) 1.
Proof.
  destruct (multiUpscale doublingEngine rgbaPair 3 tt) as [s' [out|]] eqn:Hrun.
  - exists out. split; [reflexivity|].
    apply (doubling_multiUpscale_nearest doublingEngine rgbaPair 2 1 3 tt s' out).
    + by intros s t.
    + split; reflexivity.
    + lia.
    + lia.
    + lia.
    + by vm_compute.
    + by vm_compute.
    + exact Hrun.
    + by vm_compute.
    + by vm_compute.
    + lia.
  - vm_compute in Hrun. discriminate.
Defined.

(** X8.  Passes compose: enlarging with factor [a + b] is enlarging with
    factor [a] and then enlarging the result with factor [b], the session
    being handed on; a failure in the first part leaves the second part
    without any inference call. *)
Theorem multiUpscale_add (E : InferenceSession) img a b s :
  0 ≤ a → 0 ≤ b →
  multiUpscale E img (a + b) s =
  match multiUpscale E img a s with
  | (s1, Some mid) => multiUpscale E mid b s1
  | (s1, None) => (s1, None)
  end.
Proof.
  intros Ha Hb. rewrite !multiUpscale_passes. unfold passes.
  rewrite seqZ_app, foldM_app by lia.
  destruct (foldM _ (seqZ 0 a) img s) as [s1 [mid|]]; [|done].
  rewrite multiUpscale_passes. apply passes_length.
  by rewrite !length_seqZ.
Qed.

Lemma multiUpscale_add_witness :
  multiUpscale doublingEngine pixel1 (1 + 2) tt =
  match multiUpscale doublingEngine pixel1 1 tt with
  | (s1, Some mid) => multiUpscale doublingEngine mid 2 s1
  | (s1, None) => (s1, None)
  end.
Proof.
  apply (multiUpscale_add doublingEngine pixel1 1 2 tt); lia.
Defined.

(** ** What the engine is given *)

Lemma tileStep_recording (E : InferenceSession) img ij d s log :
  tileStep (recording E) img ij d (s, log) =
  ((tileStep E img ij d s).1, log ++ [chunkOf img ij], (tileStep E img ij d s).2).
Proof.
  unfold tileStep, processTile, runSuperRes, chunkOf, throw. cbn [session_run recording fst snd].
  by destruct (session_run E s _) as [s1 [cd|]].
Qed.

Lemma foldM_recording (E : InferenceSession) img l d s log :
  ∃ k, (k ≤ length l)%nat ∧
       foldM (tileStep (recording E) img) l d (s, log) =
       ((foldM (tileStep E img) l d s).1, log ++ (chunkOf img <$> take k l),
        (foldM (tileStep E img) l d s).2) ∧
       (is_Some (foldM (tileStep E img) l d s).2 → k = length l).
Proof.
  revert d s log. induction l as [|ij l IH]; intros d s log.
  - exists 0%nat. cbn. rewrite app_nil_r. by repeat split.
  - cbn [foldM]. unfold bind. rewrite tileStep_recording.
    destruct (tileStep E img ij d s) as [s1 [d1|]]; cbn [fst snd].
    + destruct (IH d1 s1 (log ++ [chunkOf img ij])) as (k & Hk & -> & Hall).
      exists (S k). split; [cbn; lia|]. split.
      * cbn [take fmap list_fmap]. by rewrite <- app_assoc.
      * intros Hs. cbn [length]. f_equal. by apply Hall.
    + exists 1%nat. split; [cbn; lia|]. split; [by destruct l|].
      by intros [? [=]].
Qed.

Lemma length_pairs {A B} (l : list A) (l' : list B) :
  length (i ← l; j ← l'; [(i, j)]) = (length l * length l')%nat.
Proof.
  induction l as [|i l IH]; [done|].
  cbn [mbind list_bind]. change (list_bind _ _ ?f ?l) with (mbind f l).
  rewrite length_app, IH. cbn [length Nat.mul]. f_equal.
  clear. induction l' as [|j l' IH']; [done|].
  cbn [mbind list_bind length app]. by f_equal.
Qed.

Lemma length_grid W H :
  length (grid W H) = (Z.to_nat (nChunks H) * Z.to_nat (nChunks W))%nat.
Proof. unfold grid. by rewrite length_pairs, !length_seqZ. Qed.

(** X9.  A pass that completes has made one inference call per tile of
    the grid, [nChunksH * nChunksW] calls, in row-major order: the chunks
    that an engine recording its calls has seen are the chunks of the
    tiles, each once.  Recording changes neither the result nor the
    session. *)
Theorem pass_submits_each_tile_once (E : InferenceSession) img s s' out log :
  upscaleFrame E img s = (s', Some out) →
  upscaleFrame (recording E) img (s, log) =
    ((s', log ++ (chunkOf img <$> grid (shape0 (view img)) (shape1 (view img)))), Some out) ∧
  length (chunkOf img <$> grid (shape0 (view img)) (shape1 (view img))) =
    (Z.to_nat (nChunks (shape1 (view img))) * Z.to_nat (nChunks (shape0 (view img))))%nat.
Proof.
  intros Hrun. split; [|by rewrite length_fmap, length_grid].
  rewrite upscaleFrame_unfold in Hrun |- *.
  destruct (foldM_recording E img (grid (shape0 (view img)) (shape1 (view img)))
              (new_Uint8Array (shape0 (view img) * 2 * (shape1 (view img) * 2) * 4)) s log)
    as (k & _ & -> & Hall).
  destruct (foldM (tileStep E img) _ _ s) as [s1 [d|]]; [|done].
  injection Hrun as <- <-. cbn [fst snd] in *.
  rewrite (Hall ltac:(by eexists)), firstn_all. done.
Qed.

Lemma pass_submits_each_tile_once_witness :
  upscaleFrame (recording doublingEngine) pixel1 (tt, []) =
    ((tt, [] ++ (chunkOf pixel1 <$> grid (shape0 (view pixel1)) (shape1 (view pixel1)))),
     Some (NdArray.mk [x01; x02; x03; x04; x01; x02; x03; x04;
                       x01; x02; x03; x04; x01; x02; x03; x04] (ndarray (2, 2, 4)))) ∧
  length (chunkOf pixel1 <$> grid (shape0 (view pixel1)) (shape1 (view pixel1))) =
    (Z.to_nat (nChunks (shape1 (view pixel1))) * Z.to_nat (nChunks (shape0 (view pixel1))))%nat.
Proof.
  apply (pass_submits_each_tile_once doublingEngine pixel1 tt tt).
  reflexivity.
Defined.

Lemma tile_inW_bounds W H i j :
  1 ≤ W → 1 ≤ H → inGrid W H i j →
  1 ≤ t_inW (tileOf W H i j) ≤ CHUNK_SIZE + 2 * PAD_SIZE ∧
  1 ≤ t_inH (tileOf W H i j) ≤ CHUNK_SIZE + 2 * PAD_SIZE.
Proof.
  intros HW HH Hg.
  pose proof (tile_facts W H i j HW HH Hg) as F.
  pose proof (tf_cropW _ _ _ F). pose proof (tf_cropH _ _ _ F).
  pose proof (tf_xStart _ _ _ F). pose proof (tf_yStart _ _ _ F).
  pose proof (tf_cW _ _ _ F). pose proof (tf_cH _ _ _ F).
  destruct (chunk_bounds W HW) as [[_ HcW] _].
  destruct (chunk_bounds H HH) as [[_ HcH] _].
  assert (t_inW (tileOf W H i j) ≤ W / nChunks W + PAD_SIZE * 2 ∧
          t_inH (tileOf W H i j) ≤ H / nChunks H + PAD_SIZE * 2) as [? ?].
  { pose proof (tf_inW _ _ _ F) as HiW. pose proof (tf_inH _ _ _ F) as HiH.
    revert HiW HiH. unfold tileOf, tile. cbn [t_inW t_inH t_xStart t_yStart].
    destruct (Z.gtb_spec (Z.max 0 (j * (W / nChunks W) - PAD_SIZE) + W / nChunks W
                            + PAD_SIZE * 2) W);
      destruct (Z.gtb_spec (Z.max 0 (i * (H / nChunks H) - PAD_SIZE) + H / nChunks H
                              + PAD_SIZE * 2) H); lia. }
  lia.
Qed.

(** X10.  Every chunk that a pass submits is well formed and of bounded
    size: its dimensions are [(inW, inH, 4)] with [inW] and [inH] between 1
    and 1088 ([CHUNK_SIZE + 2 * PAD_SIZE]), its buffer has [inW * inH * 4]
    bytes, and the construction of the tensor in [prepareImage] does not
    raise. *)
Theorem chunks_are_bounded img W H i j :
  shape0 (view img) = W → shape1 (view img) = H →
  1 ≤ W → 1 ≤ H → inGrid W H i j →
  let tl := tileOf W H i j in
  dims (chunkOf img (i, j)) = (t_inW tl, t_inH tl, 4) ∧
  1 ≤ t_inW tl ≤ 1088 ∧ 1 ≤ t_inH tl ≤ 1088 ∧
  Z.of_nat (length (tdata (chunkOf img (i, j)))) = t_inW tl * t_inH tl * 4 ∧
  prepareImageFor (subArr img tl) "superRes" =
    Some (mkFeeds (tdata (chunkOf img (i, j))) [t_inW tl; t_inH tl; 4]).
Proof.
  intros HsW HsH HW HH Hg.
  pose proof (tile_inW_bounds W H i j HW HH Hg) as [HbW HbH].
  pose proof (inSlice_shape W H i j HW HH Hg img) as Hsh.
  cbv zeta. unfold chunkOf. cbn [fst snd]. rewrite HsW, HsH.
  set (tl := tileOf W H i j) in *.
  assert (Hv : view (subArr img tl) = ndarray (t_inW tl, t_inH tl, 4))
    by (unfold subArr; cbn [view]; by rewrite Hsh).
  assert (Hl : length (data (subArr img tl)) = Z.to_nat (t_inW tl * t_inH tl * 4)).
  { unfold subArr. cbn [data].
    etrans; [apply (writes_assign _ _ _ _)|]. apply length_new_Uint8Array. }
  unfold CHUNK_SIZE, PAD_SIZE in *.
  split; [unfold prepareImage; by rewrite Hv|].
  split; [lia|]. split; [lia|].
  unfold prepareImage at 1 2. cbn [tdata]. rewrite Hl.
  split; [lia|].
  unfold prepareImageFor. cbn [String.eqb Ascii.eqb Bool.eqb].
  rewrite Hv. unfold shape0, shape1. cbn [shape ndarray fst snd].
  unfold ort_Tensor. rewrite decide_True; [done|].
  split; [repeat constructor; lia|].
  rewrite Hl. cbn [foldr]. lia.
Qed.

Lemma chunks_are_bounded_witness :
  let tl := tileOf 2000 1500 1 1 in
  let img := NdArray.mk [] (ndarray (2000, 1500, 4)) in
  dims (chunkOf img (1, 1)) = (t_inW tl, t_inH tl, 4) ∧
  1 ≤ t_inW tl ≤ 1088 ∧ 1 ≤ t_inH tl ≤ 1088 ∧
  Z.of_nat (length (tdata (chunkOf img (1, 1)))) = t_inW tl * t_inH tl * 4 ∧
  prepareImageFor (subArr img tl) "superRes" =
    Some (mkFeeds (tdata (chunkOf img (1, 1))) [t_inW tl; t_inH tl; 4]).
Proof.
  apply (chunks_are_bounded (NdArray.mk [] (ndarray (2000, 1500, 4))) 2000 1500 1 1).
  - reflexivity.
  - reflexivity.
  - lia.
  - lia.
  - split; split; by vm_compute.
Defined.

(** X11.  The chunk submitted for a tile holds the pixels of the padded
    input region of the source, unchanged and in the source's order: its
    element [(a,b,c)] is the source element [(xStart + a, yStart + b, c)]. *)
Theorem chunk_holds_padded_region img W H i j a b c :
  rgba img W H → 1 ≤ W → 1 ≤ H → inGrid W H i j →
  let tl := tileOf W H i j in
  0 ≤ a < t_inW tl → 0 ≤ b < t_inH tl → 0 ≤ c < 4 →
  get (tdata (chunkOf img (i, j))) (ndarray (dims (chunkOf img (i, j)))) a b c =
  get (data img) (view img) (t_xStart tl + a) (t_yStart tl + b) c.
Proof.
  intros Himg HW HH Hg tl Ha Hb Hc.
  destruct (rgba_shape img W H Himg) as [HsW HsH].
  destruct (subArr_contents img W H i j a b c Himg HW HH Hg Ha Hb Hc) as (Hv & _ & Hget).
  fold tl in Hv, Hget.
  unfold chunkOf, prepareImage. cbn [fst snd tdata dims]. rewrite HsW, HsH.
  fold tl. rewrite <- Hget, Hv. reflexivity.
Qed.

Lemma chunk_holds_padded_region_witness :
  get (tdata (chunkOf rgbaPair (0, 0))) (ndarray (dims (chunkOf rgbaPair (0, 0)))) 1 0 2 =
  get (data rgbaPair) (view rgbaPair)
    (t_xStart (tileOf 2 1 0 0) + 1) (t_yStart (tileOf 2 1 0 0) + 0) 2.
Proof.
  apply (chunk_holds_padded_region rgbaPair 2 1 0 0 1 0 2).
  - split; reflexivity.
  - lia.
  - lia.
  - split; split; by vm_compute.
  - by vm_compute.
  - by vm_compute.
  - lia.
Defined.

(** ** [processAlphaChannel] and [prepareImage] on their own *)

(** X12.  On a contiguous output array of shape [(outW, outH, 4)],
    [processAlphaChannel] sets the alpha of every pixel [(x,y)] to the
    alpha that the input view has at [(x/2, y/2)], 0 where the input view
    reaches outside its buffer, and leaves the three colour channels of
    every pixel as they were. *)
Theorem processAlphaChannel_alpha_only inData inputArray outData outW outH :
  0 ≤ outW → 0 ≤ outH → length outData = Z.to_nat (outW * outH * 4) →
  let outputArray := ndarray (outW, outH, 4) in
  let d' := processAlphaChannel inData inputArray outData outputArray in
  length d' = length outData ∧
  ∀ x y c, 0 ≤ x < outW → 0 ≤ y < outH → 0 ≤ c < 4 →
    get d' outputArray x y c =
    if decide (c = 3) then Some (ToUint8 (get inData inputArray (x / 2) (y / 2) 3))
    else get outData outputArray x y c.
Proof.
  intros HW HH Hlen. cbv zeta.
  pose proof (writes_processAlphaChannel inData inputArray (ndarray (outW, outH, 4)) outData)
    as (La & A1 & A2).
  cbn beta in La, A1, A2. split; [done|].
  intros x y c Hx Hy Hc. unfold get at 1 3.
  pose proof (flat_range outW outH 4 x y c Hx Hy Hc) as Hr.
  assert (Hdec : ∀ b, alphaStores inData inputArray (ndarray (outW, outH, 4))
                        (index (ndarray (outW, outH, 4)) x y c) b →
                      c = 3 ∧ b = ToUint8 (get inData inputArray (x / 2) (y / 2) 3)).
  { intros b (x' & y' & Hx' & Hy' & Hidx & ->).
    unfold shape0, shape1 in Hx', Hy'. cbn [shape ndarray fst snd] in Hx', Hy'.
    rewrite !index_ndarray in Hidx by lia.
    apply flat_inj in Hidx as (-> & -> & ->); [done|lia..]. }
  destruct (decide (c = 3)) as [->|Hc3].
  - destruct (A2 (index (ndarray (outW, outH, 4)) x y 3)
                (ToUint8 (get inData inputArray (x / 2) (y / 2) 3)))
      as (b' & Hb' & ->).
    + exists x, y. unfold shape0, shape1. cbn [shape ndarray fst snd]. done.
    + rewrite index_ndarray, Hlen by lia. lia.
    + apply Hdec in Hb' as [_ ->]. done.
  - destruct (A1 (index (ndarray (outW, outH, 4)) x y c)) as [?|(b & Hb & _)]; [done|].
    apply Hdec in Hb as [? _]. done.
Qed.

Lemma processAlphaChannel_alpha_only_witness :
  let outputArray := ndarray (2, 2, 4) in
  let d' := processAlphaChannel (data pixel1) (view pixel1) (new_Uint8Array 16) outputArray in
  length d' = length (new_Uint8Array 16) ∧
  ∀ x y c, 0 ≤ x < 2 → 0 ≤ y < 2 → 0 ≤ c < 4 →
    get d' outputArray x y c =
    if decide (c = 3) then Some (ToUint8 (get (data pixel1) (view pixel1) (x / 2) (y / 2) 3))
    else get (new_Uint8Array 16) outputArray x y c.
Proof.
  apply (processAlphaChannel_alpha_only (data pixel1) (view pixel1) (new_Uint8Array 16) 2 2).
  - lia.
  - lia.
  - reflexivity.
Defined.

Lemma tagger_views W H a b c :
  0 ≤ W → 0 ≤ H →
  shape (pick_first (ndarray4 (1, 3, H, W)) 0) = (3, H, W) ∧
  index (pick_first (ndarray4 (1, 3, H, W)) 0) a b c = (a * H + b) * W + c ∧
  index (transpose (hi (lo (ndarray (W, H, 4)) 0 0 0) W H 3) 2 1 0) a b c
    = (c * H + b) * 4 + a.
Proof.
  intros HW HH. split; [reflexivity|]. split.
  - unfold index, pick_first, ndarray4, stride0, stride1, stride2.
    cbn [shape4 stride4 offset4 stride offset fst snd]. rewrite !Z.mul_1_l.
    destruct (Z.ltb_spec (W * H * 3) 0); [nia|].
    destruct (Z.ltb_spec (W * H) 0); [nia|].
    destruct (Z.ltb_spec W 0); [lia|]. ring.
  - unfold index, transpose, hi, lo, ndarray, stride0, stride1, stride2,
      shape0, shape1, shape2, axis.
    cbn [stride offset shape fst snd Z.eqb Z.leb Z.compare].
    rewrite !Z.mul_1_l.
    destruct (Z.ltb_spec (4 * H) 0); [lia|].
    change (4 <? 0) with false. change (1 =? 1)%positive with true. cbv iota. ring.
Qed.

(** X13.  For the tagger model, [prepareImage] turns a W x H RGBA image
    into a planar tensor of dimensions [[1, 3, H, W]]: the element at
    [(c*H + y)*W + x] is the channel [c] of the source pixel [(x,y)], for
    the three colour channels; the alpha channel is dropped. *)
Theorem tagger_is_planar_rgb img W H :
  rgba img W H → 0 ≤ W → 0 ≤ H →
  ∃ f, prepareImageFor img "tagger" = Some f ∧
       f_dims f = [1; 3; H; W] ∧
       Z.of_nat (length (f_data f)) = W * H * 3 ∧
       ∀ x y c, 0 ≤ x < W → 0 ≤ y < H → 0 ≤ c < 3 →
         read (f_data f) ((c * H + y) * W + x) = get (data img) (view img) x y c.
Proof.
  intros Himg HW HH.
  destruct (rgba_shape img W H Himg) as [HsW HsH]. pose proof Himg as [Hv Hl].
  unfold prepareImageFor. cbn [String.eqb Ascii.eqb Bool.eqb].
  rewrite HsW, HsH, Hv.
  set (dv := pick_first (ndarray4 (1, 3, H, W)) 0).
  set (sv := transpose (hi (lo (ndarray (W, H, 4)) 0 0 0) W H 3) 2 1 0).
  pose proof (writes_assign dv (data img) sv (new_Uint8Array (W * H * 3)))
    as (Hlen & _ & Hw).
  cbn beta in Hlen, Hw. rewrite length_new_Uint8Array in Hlen, Hw.
  unfold ort_Tensor. rewrite decide_True; cycle 1.
  { split; [repeat constructor; lia|]. rewrite Hlen. cbn [foldr]. lia. }
  eexists. split; [reflexivity|]. cbn [f_dims f_data].
  split; [done|]. split; [rewrite Hlen; lia|].
  intros x y c Hx Hy Hc.
  pose proof (flat_range 3 H W c y x Hc Hy Hx) as Hr.
  destruct (Hw ((c * H + y) * W + x)
              (ToUint8 (read (data img) (index sv c y x))))
    as (b' & (a' & b'' & c' & Ha' & Hb' & Hc' & Hk' & ->) & ->); [|lia|].
  - exists c, y, x. unfold shape0, shape1, shape2.
    destruct (tagger_views W H c y x HW HH) as (Hsh & Hid & _).
    subst dv. rewrite Hsh, Hid. cbn [fst snd]. done.
  - destruct (tagger_views W H a' b'' c' HW HH) as (Hsh & Hid & Hsid).
    unfold shape0, shape1, shape2 in Ha', Hb', Hc'. subst dv sv.
    rewrite Hsh in Ha', Hb', Hc'. cbn [fst snd] in Ha', Hb', Hc'.
    rewrite Hid in Hk'. apply flat_inj in Hk' as (<- & <- & <-); [|lia..].
    rewrite Hsid. unfold get. rewrite index_ndarray by lia.
    apply Some_ToUint8, read_is_Some. rewrite Hl.
    pose proof (flat_range W H 4 x y c). lia.
Qed.

Lemma tagger_is_planar_rgb_witness :
  ∃ f, prepareImageFor rgbaPair "tagger" = Some f ∧
       f_dims f = [1; 3; 1; 2] ∧
       Z.of_nat (length (f_data f)) = 2 * 1 * 3 ∧
       ∀ x y c, 0 ≤ x < 2 → 0 ≤ y < 1 → 0 ≤ c < 3 →
         read (f_data f) ((c * 1 + y) * 2 + x) = get (data rgbaPair) (view rgbaPair) x y c.
Proof.
  apply (tagger_is_planar_rgb rgbaPair 2 1).
  - split; reflexivity.
  - lia.
  - lia.
Defined.

(** ** The driver *)


Lemma bulkLoop_count_bounds (E : InferenceSession) (P : Platform E)
    inputDir outputDir N l (w : World E P) :
  0 ≤ (bulkLoop E P inputDir outputDir N l w).2 ≤ Z.of_nat (length l).
Proof.
  revert w. induction l as [|f l IH]; intros w; [done|].
  rewrite bulkLoop_cons. cbn [snd length].
  specialize (IH (processFile E P inputDir outputDir N f w).1).
  destruct (processFile E P inputDir outputDir N f w).2; lia.
Qed.



(** X16.  The batch summary is consistent: the number of successes it
    reports is between 0 and the number of PNG files it reports. *)
Theorem batch_summary_bounds (E : InferenceSession) (P : Platform E)
    inputDir outputDir N (w : World E P) successCount total :
  (processBulkImages E P inputDir outputDir N w).2 = Some (successCount, total) →
  0 ≤ successCount ≤ total.
Proof.
  unfold processBulkImages.
  destruct (fs_mkdir P outputDir (files w)) as [fs1|]; [|done].
  destruct (fs_readdir P fs1 inputDir) as [dirFiles|]; [|done].
  destruct (initializeONNX E P _) as [w2|]; [|done].
  set (pngFiles := filter _ dirFiles).
  pose proof (bulkLoop_count_bounds E P inputDir outputDir N pngFiles w2) as Hb.
  destruct (bulkLoop E P inputDir outputDir N pngFiles w2) as [w3 c].
  intros [= <- <-]. exact Hb.
Qed.

Lemma batch_summary_bounds_witness : 0 ≤ 2 ≤ 3.
Proof.
  apply (batch_summary_bounds pickyEngine demoPlatform "in" "out" 1 demoWorld 2 3).
  reflexivity.
Defined.

(** ** Transparency over several passes, and a pass that fails *)

(** X18.  Whatever the engine returns, [multiUpscale] with factor [N]
    keeps the transparency of an image whose enlarged width and height do
    not exceed 2048: the alpha of the result's pixel [(x,y)] is the source
    alpha at [(x / 2^N, y / 2^N)]. *)
Theorem multiUpscale_alpha_nearest (E : InferenceSession) img W H N s s' out :
  rgba img W H → 1 ≤ W → 1 ≤ H → 0 ≤ N →
  W * 2 ^ N ≤ 2 * CHUNK_SIZE → H * 2 ^ N ≤ 2 * CHUNK_SIZE →
  multiUpscale E img N s = (s', Some out) →
  ∀ x y, 0 ≤ x < W * 2 ^ N → 0 ≤ y < H * 2 ^ N →
    get (data out) (view out) x y 3 = get (data img) (view img) (x / 2 ^ N) (y / 2 ^ N) 3.
Proof.
  intros Himg HW HH HN HbW HbH Hrun x y Hx Hy.
  rewrite multiUpscale_passes in Hrun.
  pose proof (passes_alpha_nearest E (seqZ 0 N) img W H s s' out Himg HW HH) as Hn.
  rewrite length_seqZ, Z2Nat.id in Hn by lia. by apply Hn.
Qed.

Lemma multiUpscale_alpha_nearest_witness :
  ∃ out, (multiUpscale onePixelEngine rgbaPair 2 tt).2 = Some out ∧
         get (data out) (view out) 5 3 3 =
         get (data rgbaPair) (view rgbaPair) (5 / 2 ^ 2) (3 / 2 ^ 2) 3.
Proof.
  destruct (multiUpscale onePixelEngine rgbaPair 2 tt) as [s' [out|]] eqn:Hrun.
  - exists out. split; [reflexivity|].
    apply (multiUpscale_alpha_nearest onePixelEngine rgbaPair 2 1 2 tt s' out).
    + split; reflexivity.
    + lia.
    + lia.
    + lia.
    + by vm_compute.
    + by vm_compute.
    + exact Hrun.
    + by vm_compute.
    + by vm_compute.
  - vm_compute in Hrun. discriminate.
Defined.


